(** * Route / Router (src/lib/router.ts): a shallow embedding

    The navigation tree of [router.ts] is a graph of mutable [Route]
    objects: every object stores a back-reference to its parent and the
    ordered array of its children.  The embedding keeps that shape: a
    store of objects addressed by reference, getters as functions that
    read the store, setters and methods as state transformers that may
    throw.  Recursion that follows references ([fullName], [flatten],
    [didCreateRoute]) is bounded by a fuel argument; running out of fuel
    is the outcome [Abort], never a value.

    Conventions.  A JavaScript string is a [string] of the standard
    library and a character one [ascii]; [undefined] is [None].  An array
    is a list kept inside the object that owns it.  A listener is a tag,
    and calling it appends an event to the trace of the state: listeners
    observe, they do not change the tree. *)

From Stdlib Require Import String Ascii List Arith ZArith Lia Bool.
From stdpp Require Import base list.
Import ListNotations.
Local Open Scope string_scope.
Set Warnings "-register-all".

(** ** JavaScript strings *)

Module JsString.

(** [str[i]]: the character at index [i], [undefined] past the end. *)
Definition char_at (str : string) (i : nat) : option ascii := String.get i str.

(** [a === b] on two values that are characters or [undefined]. *)
Definition same_char (a b : option ascii) : bool :=
  match a, b with
  | Some x, Some y => Ascii.eqb x y
  | None, None => true
  | _, _ => false
  end.

(** [str[i] === c] for a character literal [c]. *)
Definition is_char (a : option ascii) (c : ascii) : bool := same_char a (Some c).

(** Truthiness of [str[i]]: a one-character string is truthy,
    [undefined] is falsy. *)
Definition truthy (a : option ascii) : bool :=
  match a with Some _ => true | None => false end.

(** [str.substr(1)] *)
Definition tail (str : string) : string :=
  match str with
  | EmptyString => EmptyString
  | String _ rest => rest
  end.

(** [str.includes(char)] for a one-character [char]. *)
Fixpoint includes (str : string) (c : ascii) : bool :=
  match str with
  | EmptyString => false
  | String x rest => if Ascii.eqb x c then true else includes rest c
  end.

(** [str.includes(char) ? str.substr(str.indexOf(char) + 1) : ""] *)
Fixpoint after (str : string) (c : ascii) : string :=
  match str with
  | EmptyString => EmptyString
  | String x rest => if Ascii.eqb x c then rest else after rest c
  end.

(** [parts.join(sep)] *)
Fixpoint join (sep : string) (parts : list string) : string :=
  match parts with
  | [] => ""
  | [p] => p
  | p :: rest => p ++ sep ++ join sep rest
  end.

(** The filter callback [part => part && part !== ""] applied to a value
    that is a string or [undefined]. *)
Definition present (part : option string) : option string :=
  match part with
  | Some "" => None
  | other => other
  end.

Definition nonempty (s : string) : bool :=
  match s with EmptyString => false | _ => true end.

(** [str.replace(/\/+$/, "")]: drop every trailing slash. *)
Fixpoint strip_trailing_slashes (str : string) : string :=
  match str with
  | EmptyString => EmptyString
  | String c rest =>
      match strip_trailing_slashes rest with
      | EmptyString => if Ascii.eqb c "/" then EmptyString else String c EmptyString
      | kept => String c kept
      end
  end.

End JsString.
Import JsString.

(** ** The recursive matcher of [Route.matches] (router.ts, lines 257-290)

    [match_] follows the source branch by branch.  Each recursive call
    shortens [dynamic] or [fixed], so [length dynamic + length fixed + 1]
    units of fuel always suffice ([match__total]). *)

Fixpoint match_ (fuel : nat) (dynamic fixed : string) : option bool :=
  match fuel with
  | O => None
  | S fuel' =>
      (* we're at the end of both strings without errors, we're done! *)
      if (String.length dynamic =? 0)%nat && (String.length fixed =? 0)%nat then Some true
      (* we're about to start a dynamic segment, but there is no fixed route left *)
      else if is_char (char_at dynamic 1) ":" && negb (truthy (char_at fixed 1)) then Some false
      (* we're in a dynamic segment and we finished reading the fixed route *)
      else if is_char (char_at dynamic 0) ":" && (String.length fixed =? 0)%nat then
        match_ fuel' (after dynamic "/") fixed
      (* we're in a dynamic segment that hasn't ended *)
      else if is_char (char_at dynamic 0) ":" && negb (is_char (char_at fixed 0) "/") then
        match_ fuel' dynamic (tail fixed)
      (* we're in a dynamic segment that just ended *)
      else if is_char (char_at dynamic 0) ":" && is_char (char_at fixed 0) "/" then
        match_ fuel' (after dynamic "/") (tail fixed)
      (* the routes are matching so far *)
      else if same_char (char_at dynamic 0) (char_at fixed 0) then
        match_ fuel' (tail dynamic) (tail fixed)
      (* the routes don't match *)
      else Some false
  end.

Definition match_fuel (dynamic fixed : string) : nat :=
  S (String.length dynamic + String.length fixed).

Definition run_match (dynamic fixed : string) : bool :=
  match match_ (match_fuel dynamic fixed) dynamic fixed with
  | Some b => b
  | None => false
  end.


(** ** Outcomes of a call

    [Ok] is a returned value and [Throw] a JavaScript exception.  [Abort]
    is the embedding's own: the fuel of a reference-following recursion
    ran out, or a reference points outside the store (which no JavaScript
    reference does). *)

Inductive exn : Type :=
| Error (message : string)      (* [throw new Error(message)] *)
| TypeError.                    (* a property read on [undefined] *)

Inductive outcome (A : Type) : Type :=
| Ok (a : A)
| Throw (e : exn)
| Abort.
Arguments Ok {A} a.
Arguments Throw {A} e.
Arguments Abort {A}.

#[global] Instance outcome_ret : MRet outcome := fun _ a => Ok a.
#[global] Instance outcome_bind : MBind outcome := fun _ _ f m =>
  match m with
  | Ok a => f a
  | Throw e => Throw e
  | Abort => Abort
  end.

(** ** Objects *)

(** A reference to a [Route] object: its index in the store. *)
Abbreviation ref := nat (only parsing).

(** The value of [_onNewRoute]: the initial [() => {}], or a callback
    registered through [onNewRoute].  A callback is identified by a tag;
    calling it is recorded in the trace of the state. *)
Inductive listener : Type :=
| NoOp
| Callback (tag : nat).

Inductive event : Type :=
| Called (tag : nat) (route : ref).

Definition Meta : Type := list (string * string).

(** [class Route]: the public fields and the private ones.  [_activePath]
    and [_parent] are [undefined] until assigned.  The array [_routes] is
    kept by value inside its owner. *)
Record Route : Type := mkRoute {
  label : string;
  name : string;
  path : string;
  meta : Meta;
  _activePath : option string;
  _parent : option ref;
  _routes : list ref;
  _onNewRoute : listener
}.

Definition with_parent (p : ref) (r : Route) : Route :=
  mkRoute (label r) (name r) (path r) (meta r) (_activePath r) (Some p) (_routes r) (_onNewRoute r).
Definition with_routes (rs : list ref) (r : Route) : Route :=
  mkRoute (label r) (name r) (path r) (meta r) (_activePath r) (_parent r) rs (_onNewRoute r).
Definition with_activePath (a : string) (r : Route) : Route :=
  mkRoute (label r) (name r) (path r) (meta r) (Some a) (_parent r) (_routes r) (_onNewRoute r).
Definition with_onNewRoute (l : listener) (r : Route) : Route :=
  mkRoute (label r) (name r) (path r) (meta r) (_activePath r) (_parent r) (_routes r) l.

(** [interface RouteDefinition].  An absent [routes] is the empty list:
    [add] treats the two alike (line 345). *)
Inductive RouteDefinition : Type :=
| Definition_ (d_label d_name : string) (d_path : option string)
              (d_routes : list RouteDefinition) (d_meta : option Meta).

(** [interface RouteOptions] *)
Record RouteOptions : Type := mkOptions {
  o_label : string;
  o_name : string;
  o_path : string;
  o_meta : option Meta;
  o_routes : option (list ref);
  o_parent : option ref
}.

(** ** Getters: functions of the store *)

Abbreviation heap := (list Route).

Definition deref (h : heap) (r : ref) : outcome Route :=
  match h !! r with
  | Some o => Ok o
  | None => Abort
  end.

(** [get fullName] (lines 180-184) *)
Fixpoint fullName (fuel : nat) (h : heap) (this : ref) : outcome string :=
  match fuel with
  | O => Abort
  | S fuel' =>
      o ← deref h this;
      inherited ← match _parent o with
                  | Some p => n ← fullName fuel' h p; Ok (Some n)
                  | None => Ok None
                  end;
      Ok (join "." (omap present [inherited; Some (name o)]))
  end.

(** [get fullPath] (lines 186-190) *)
Fixpoint fullPath (fuel : nat) (h : heap) (this : ref) : outcome string :=
  match fuel with
  | O => Abort
  | S fuel' =>
      o ← deref h this;
      inherited ← match _parent o with
                  | Some p => n ← fullPath fuel' h p; Ok (Some n)
                  | None => Ok None
                  end;
      Ok (join "" (omap present [inherited; Some (path o)]))
  end.

(** [get isDynamic] *)
Definition isDynamic (h : heap) (this : ref) : outcome bool :=
  o ← deref h this; Ok (includes (path o) ":").

(** [get parent], [get routes] *)
Definition parent (h : heap) (this : ref) : outcome (option ref) :=
  o ← deref h this; Ok (_parent o).
Definition routes (h : heap) (this : ref) : outcome (list ref) :=
  o ← deref h this; Ok (_routes o).

(** Array helpers whose callback may throw. *)
Section ArrayCallbacks.
Context {A : Type}.

(** [array.reduce(f, init)] *)
Fixpoint reduce {B : Type} (f : B → A → outcome B) (l : list A) (acc : B) : outcome B :=
  match l with
  | [] => Ok acc
  | x :: rest => acc' ← f acc x; reduce f rest acc'
  end.

(** [array.find(p)] *)
Fixpoint find (p : A → outcome bool) (l : list A) : outcome (option A) :=
  match l with
  | [] => Ok None
  | x :: rest => b ← p x; if b : bool then Ok (Some x) else find p rest
  end.

(** [array.filter(p)] *)
Fixpoint filter_ (p : A → outcome bool) (l : list A) : outcome (list A) :=
  match l with
  | [] => Ok []
  | x :: rest => b ← p x; kept ← filter_ p rest; Ok (if b : bool then x :: kept else kept)
  end.

(** [array.every(p)] *)
Fixpoint every (p : A → outcome bool) (l : list A) : outcome bool :=
  match l with
  | [] => Ok true
  | x :: rest => b ← p x; if b : bool then every p rest else Ok false
  end.
End ArrayCallbacks.

(** [flatten] of [get allRoutes] (lines 225-229) *)
Fixpoint flatten (fuel : nat) (h : heap) (rs : list ref) : outcome (list ref) :=
  match fuel with
  | O => Abort
  | S fuel' =>
      reduce (fun result route =>
                sub ← (routes h route ≫= flatten fuel' h);
                Ok (result ++ [route] ++ sub)%list) rs []
  end.

(** [get allRoutes] *)
Definition allRoutes (fuel : nat) (h : heap) (this : ref) : outcome (list ref) :=
  routes h this ≫= flatten fuel h.

(** [get pages] *)
Definition pages (fuel : nat) (h : heap) (this : ref) : outcome (list ref) :=
  all ← allRoutes fuel h this;
  filter_ (fun route => rs ← routes h route; Ok (length rs =? 0)%nat) all.

(** [get activePath] (lines 238-240) *)
Fixpoint activePath (fuel : nat) (h : heap) (this : ref) : outcome (option string) :=
  match fuel with
  | O => Abort
  | S fuel' =>
      o ← deref h this;
      match _parent o with
      | Some p => activePath fuel' h p
      | None => Ok (_activePath o)
      end
  end.

Definition invalid_argument (path : string) : string :=
  "Cannot match " ++ path ++ ", it needs to be a valid URL with no dynamic segments".

(** [matches(path)] (lines 252-299) *)
Definition matches (fuel : nat) (h : heap) (this : ref) (path : string) : outcome bool :=
  if includes path ":" then Throw (Error (invalid_argument path))
  else pattern ← fullPath fuel h this; Ok (run_match pattern path).

(** [get activePage] (lines 302-306).  The argument of [matches] is
    evaluated inside the callback: [this.activePath.replace] on an
    unassigned [activePath] is a [TypeError]. *)
Definition activePage (fuel : nat) (h : heap) (this : ref) : outcome (option ref) :=
  ps ← pages fuel h this;
  find (fun route =>
          a ← activePath fuel h this;
          match a with
          | Some active => matches fuel h route (strip_trailing_slashes active)
          | None => Throw TypeError
          end) ps.

(** The local [match] of [previousPage] and [nextPage] (lines 310-312 and
    321-323): the first page whose [fullName] is that of the active page. *)
Definition located (fuel : nat) (h : heap) (this : ref) : outcome (option ref) :=
  a ← activePage fuel h this;
  match a with
  | None => Ok None
  | Some _ =>
      ps ← pages fuel h this;
      find (fun route =>
              n ← fullName fuel h route;
              a' ← activePage fuel h this;
              match a' with
              | Some page => n' ← fullName fuel h page; Ok (String.eqb n n')
              | None => Throw TypeError
              end) ps
  end.

(** [array.indexOf(x)]: the first index holding [x], or [-1]. *)
Fixpoint indexOf (l : list ref) (x : ref) : Z :=
  match l with
  | [] => (-1)%Z
  | y :: rest =>
      if (y =? x)%nat then 0%Z
      else let i := indexOf rest x in if (i <? 0)%Z then (-1)%Z else (i + 1)%Z
  end.

(** [array[i]]: [undefined] outside the array. *)
Definition item {A : Type} (l : list A) (i : Z) : option A :=
  if (i <? 0)%Z then None else l !! Z.to_nat i.

(** [get previousPage] (lines 309-317) *)
Definition previousPage (fuel : nat) (h : heap) (this : ref) : outcome (option ref) :=
  m ← located fuel h this;
  match m with
  | None => Ok None
  | Some found =>
      ps ← pages fuel h this;
      let currentIndex := indexOf ps found in
      if (0 <? currentIndex)%Z
      then ps' ← pages fuel h this; Ok (item ps' (currentIndex - 1))
      else Ok None
  end.

(** [get nextPage] (lines 320-328) *)
Definition nextPage (fuel : nat) (h : heap) (this : ref) : outcome (option ref) :=
  m ← located fuel h this;
  match m with
  | None => Ok None
  | Some found =>
      ps ← pages fuel h this;
      let currentIndex := indexOf ps found in
      ps' ← pages fuel h this;
      if (currentIndex <? Z.of_nat (length ps'))%Z
      then ps'' ← pages fuel h this; Ok (item ps'' (currentIndex + 1))
      else Ok None
  end.

(** [routerFor(fullPath)] (lines 331-333) *)
Definition routerFor (fuel : nat) (h : heap) (this : ref) (wanted : string) : outcome (option ref) :=
  all ← allRoutes fuel h this;
  find (fun route => p ← fullPath fuel h route; Ok (String.eqb p wanted)) all.

(** The keys a search object may carry, and [route[key]]. *)
Inductive key : Type := KLabel | KName | KFullName | KPath | KFullPath.

Definition property (fuel : nat) (h : heap) (route : ref) (k : key) : outcome string :=
  match k with
  | KLabel => o ← deref h route; Ok (label o)
  | KName => o ← deref h route; Ok (name o)
  | KFullName => fullName fuel h route
  | KPath => o ← deref h route; Ok (path o)
  | KFullPath => fullPath fuel h route
  end.

(** [keys.every(key => search[key] === route[key])]; the search object is
    the list of its entries in [Object.keys] order. *)
Definition satisfies (fuel : nat) (h : heap) (search : list (key * string)) (route : ref) : outcome bool :=
  every (fun entry => v ← property fuel h route (fst entry); Ok (String.eqb (snd entry) v)) search.

(** [find(search)] (lines 365-376), named after the method; the array
    method is [find] above. *)
Definition Route_find (fuel : nat) (h : heap) (this : ref) (search : list (key * string)) : outcome (option ref) :=
  all ← allRoutes fuel h this;
  find (satisfies fuel h search) all.

(** [has(search)] (lines 378-386) *)
Definition has (fuel : nat) (h : heap) (this : ref) (search : list (key * string)) : outcome bool :=
  r ← Route_find fuel h this search;
  Ok (match r with Some _ => true | None => false end).

(** ** Setters and methods: state transformers

    The state is the store together with the trace of listener calls.  A
    thrown exception keeps the state reached when it was thrown. *)

Record state : Type := mkState {
  store : heap;
  trace : list event
}.

Definition M (A : Type) : Type := state → outcome A * state.

#[global] Instance M_ret : MRet M := fun _ a s => (Ok a, s).
#[global] Instance M_bind : MBind M := fun _ _ f m s =>
  match m s with
  | (Ok a, s') => f a s'
  | (Throw e, s') => (Throw e, s')
  | (Abort, s') => (Abort, s')
  end.

Definition throw {A : Type} (e : exn) : M A := fun s => (Throw e, s).
Definition read {A : Type} (g : heap → outcome A) : M A := fun s => (g (store s), s).

(** [new]: the fresh object is appended to the store. *)
Definition alloc (o : Route) : M ref := fun s =>
  (Ok (length (store s)), mkState (store s ++ [o])%list (trace s)).

(** A field assignment on the object [r]. *)
Definition update (r : ref) (f : Route → Route) : M unit := fun s =>
  match store s !! r with
  | Some o => (Ok tt, mkState (<[r := f o]> (store s)) (trace s))
  | None => (Abort, s)
  end.

(** Calling a listener with [route]. *)
Definition call (l : listener) (route : ref) : M unit := fun s =>
  match l with
  | NoOp => (Ok tt, s)
  | Callback tag => (Ok tt, mkState (store s) (trace s ++ [Called tag route])%list)
  end.

Section ForEach.
Context {A : Type} (f : A → M unit).

(** [array.forEach(f)] *)
Fixpoint forEach (l : list A) : M unit :=
  match l with
  | [] => mret tt
  | x :: rest => f x ;; forEach rest
  end.
End ForEach.

(** [set parent] (lines 200-205) *)
Definition set_parent (this p : ref) : M unit :=
  update this (with_parent p) ;;
  siblings ← read (fun h => routes h p);
  if existsb (Nat.eqb this) siblings then mret tt
  else update p (with_routes (siblings ++ [this])%list).

Definition conflict (route target owner : string) : string :=
  "Cannot add " ++ route ++ " to " ++ target ++ ", because it already belongs to " ++ owner.

(** The [forEach] callback of [set routes] (lines 214-221) *)
Definition adopt (fuel : nat) (this route : ref) : M unit :=
  owner ← read (fun h => parent h route);
  match owner with
  | Some p =>
      if negb (p =? this)%nat then
        a ← read (fun h => fullName fuel h route);
        b ← read (fun h => fullName fuel h this);
        c ← read (fun h => fullName fuel h p);
        throw (Error (conflict a b c))
      else set_parent route this
  | None => set_parent route this
  end.

(** [set routes] (lines 211-222) *)
Definition set_routes (fuel : nat) (this : ref) (rs : list ref) : M unit :=
  update this (with_routes rs) ;;
  forEach (adopt fuel this) rs.

(** [constructor(config)] of [Route] (lines 167-178) *)
Definition new_Route (fuel : nat) (config : RouteOptions) : M ref :=
  this ← alloc (mkRoute (o_label config) (o_name config) (o_path config)
                        (default [] (o_meta config)) None None [] NoOp);
  set_routes fuel this (default [] (o_routes config)) ;;
  match o_parent config with
  | Some p => set_parent this p
  | None => mret tt
  end ;;
  mret this.

(** [set activePath] (lines 242-250) *)
Definition invalid_operation : string :=
  "activePath can only be set on the router, not a child route".

Definition set_activePath (this : ref) (a : string) : M unit :=
  owner ← read (fun h => parent h this);
  match owner with
  | Some _ => throw (Error invalid_operation)
  | None => update this (with_activePath a)
  end.

(** [onNewRoute(callback)] (lines 361-363) *)
Definition onNewRoute (this : ref) (tag : nat) : M unit :=
  update this (with_onNewRoute (Callback tag)).

(** [didCreateRoute(route)] (lines 356-359) *)
Fixpoint didCreateRoute (fuel : nat) (this route : ref) : M unit :=
  match fuel with
  | O => fun s => (Abort, s)
  | S fuel' =>
      o ← read (fun h => deref h this);
      call (_onNewRoute o) route ;;
      owner ← read (fun h => parent h this);
      match owner with
      | Some p => didCreateRoute fuel' p route
      | None => mret tt
      end
  end.

(** [add(definition)] (lines 335-354) *)
Fixpoint add (fuel : nat) (definition : RouteDefinition) (this : ref) {struct definition} : M ref :=
  match definition with
  | Definition_ d_label d_name d_path d_routes d_meta =>
      route ← new_Route fuel
                (mkOptions d_label d_name (default ("/" ++ d_name) d_path)
                           (Some (default [] d_meta)) None None);
      forEach (fun childDefinition => add fuel childDefinition route ;; mret tt) d_routes ;;
      set_parent route this ;;
      didCreateRoute fuel this route ;;
      mret route
  end.

(** [constructor(definitions)] of [Router] (lines 390-395) *)
Definition new_Router (fuel : nat) (definitions : list RouteDefinition) : M ref :=
  this ← new_Route fuel (mkOptions "" "" "" None None None);
  forEach (fun definition => add fuel definition this ;; mret tt) definitions ;;
  mret this.

Definition empty_state : state := mkState [] [].

(** The built-in definition list [allRoutes] (lines 1-133), the default
    argument of the [Router] constructor. *)
Definition page (d_label d_name : string) : RouteDefinition :=
  Definition_ d_label d_name None [] None.
Definition section_ (d_label d_name : string) (d_routes : list RouteDefinition) : RouteDefinition :=
  Definition_ d_label d_name None d_routes None.

Definition allRoutes_definitions : list RouteDefinition :=
  [ Definition_ "Index" "index" (Some "/") [] (Some [("theme", "dark")]);
    Definition_ "Thanks" "thanks" None [] (Some [("theme", "dark")]);
    section_ "Documentation" "docs"
      [ section_ "Getting started" "getting-started"
          [ page "Introduction" "introduction";
            page "Installation" "installation";
            page "Overview" "overview" ];
        section_ "Main concepts" "main-concepts"
          [ page "Route handlers" "route-handlers";
            page "Shorthands" "shorthands";
            page "The Database" "database";
            page "The ORM" "orm";
            page "Models" "models";
            page "Relationships" "relationships";
            page "Factories" "factories";
            page "Fixtures" "fixtures";
            page "Serializers" "serializers" ];
        section_ "Testing" "testing"
          [ page "Application tests" "application-tests";
            page "Integration and unit tests" "integration-and-unit-tests";
            page "Assertions" "assertions" ];
        section_ "Advanced" "advanced"
          [ page "Simulating cookie responses" "simulating-cookie-responses";
            page "Mocking GUIDs" "mocking-guids";
            page "Customizing inflections" "customizing-inflections" ];
        section_ "Meta" "meta"
          [ page "Comparison with other tools" "comparison-with-other-tools";
            page "About" "about" ] ];
    section_ "API" "api"
      [ Definition_ "Class" "class" (Some "/classes/:classSlug") [] None ];
    section_ "Quickstarts" "quickstarts"
      [ section_ "React" "react"
          [ page "Development" "development";
            page "React Testing Library" "react-testing-library" ];
        section_ "Vue" "vue"
          [ page "Development" "development";
            page "Vue Test Utils" "vue-test-utils";
            page "Production builds" "exclude-from-production" ];
        section_ "Cypress" "cypress"
          [ page "Setup" "setup" ] ] ].

(** ** Vocabulary of the statements *)

(** [s] contains the character [c]. *)
Definition contains (s : string) (c : ascii) : Prop :=
  ∃ before rest, s = before ++ String c rest.

(** [root_of h n r]: following parent links from [n] ends at [r], an
    object without parent. *)
Inductive root_of (h : heap) : ref → ref → Prop :=
| root_here r o :
    h !! r = Some o → _parent o = None → root_of h r r
| root_above n o p r :
    h !! n = Some o → _parent o = Some p → root_of h p r → root_of h n r.

(** [ancestry h n l]: [l] lists [n], its parent, the parent of that one,
    and so on up to an object without parent.  Read backwards, [reverse l]
    lists the ancestors of [n] from the root down to [n]. *)
Inductive ancestry (h : heap) : ref → list ref → Prop :=
| ancestry_root r o :
    h !! r = Some o → _parent o = None → ancestry h r [r]
| ancestry_child n o p l :
    h !! n = Some o → _parent o = Some p → ancestry h p l → ancestry h n (n :: l).

(** [descendant h r d]: [d] is reached from [r] through one or more
    child links. *)
Inductive descendant (h : heap) : ref → ref → Prop :=
| descendant_child r o d :
    h !! r = Some o → d ∈ _routes o → descendant h r d
| descendant_below r o c d :
    h !! r = Some o → c ∈ _routes o → descendant h c d → descendant h r d.

(** The field [f] of each object of [l], in order. *)
Definition fields (f : Route → string) (h : heap) (l : list ref) : list string :=
  omap (fun r => f <$> h !! r) l.

(** Stores in allocation order: a parent is older than its children.
    Every store built by [new_Router] and [add] is of this kind ([add]
    creates the child after the object it is called on). *)
Definition ordered (h : heap) : Prop :=
  ∀ i o, h !! i = Some o →
    (∀ p, _parent o = Some p → p < i) ∧
    (∀ c, c ∈ _routes o → i < c ∧ c < length h).

(** Every object but the first has a parent. *)
Definition attached (h : heap) : Prop :=
  ∀ i o, h !! i = Some o → 0 < i → is_Some (_parent o).

(** [extends this k s s']: what a call of [add] on [this] (or a run of
    such calls) does to an allocation-ordered store: [k] objects are
    appended, each with a parent; of the older objects only [this]
    changes, and only in its array of children. *)
Definition extends (this : ref) (k : nat) (s s' : state) : Prop :=
  ordered (store s') ∧
  length (store s') = length (store s) + k ∧
  (∀ i o, store s !! i = Some o → i ≠ this → store s' !! i = Some o) ∧
  (∀ o, store s !! this = Some o → ∃ rs, store s' !! this = Some (with_routes rs o)) ∧
  (∀ i o, length (store s) ≤ i → store s' !! i = Some o → is_Some (_parent o)).

(** The number of objects a definition creates. *)
Fixpoint def_size (d : RouteDefinition) : nat :=
  match d with
  | Definition_ _ _ _ d_routes _ => S (list_sum (map def_size d_routes))
  end.
Definition defs_size (ds : list RouteDefinition) : nat := list_sum (map def_size ds).

(** The argument of an event. *)
Definition subject (e : event) : ref := match e with Called _ r => r end.

(** The events of calling the listener of each object of [l] with [route]. *)
Definition notifications (h : heap) (l : list ref) (route : ref) : list event :=
  omap (fun r => match _onNewRoute <$> h !! r with
                 | Some (Callback tag) => Some (Called tag route)
                 | _ => None
                 end) l.

(** [preserved s s']: every object of [s] is still there in [s'], with
    the listener and the parent it had. *)
Definition preserved (s s' : state) : Prop :=
  ∀ i o, store s !! i = Some o →
    ∃ o', store s' !! i = Some o' ∧ _onNewRoute o' = _onNewRoute o ∧ _parent o' = _parent o.

(** [emits s s']: [s'] extends the trace of [s] by calls whose argument
    is an object created since [s]. *)
Definition emits (s s' : state) : Prop :=
  ∃ evs, trace s' = (trace s ++ evs)%list ∧
         Forall (fun e => length (store s) ≤ subject e) evs.

(** What [add], called on [this] in state [s], has done when it returns
    the object [n] in state [s']: [n] is new, has the parent [this] and
    the initial listener; the trace of [s] is followed by calls about
    other objects ([earlier]), then by the calls of the listeners along
    the ancestry of [n], in that order, each with the argument [n]. *)
Definition notified (this : ref) (s : state) (n : ref) (s' : state) : Prop :=
  ∃ node chain earlier,
    n = length (store s) ∧
    store s' !! n = Some node ∧ _parent node = Some this ∧ _onNewRoute node = NoOp ∧
    ancestry (store s') n (n :: chain) ∧
    trace s' = (trace s ++ earlier ++ notifications (store s') (n :: chain) n)%list ∧
    Forall (fun e => subject e ≠ n) earlier.

(** The search object [{name, fullName, path, fullPath, label}] made of
    the values of [n]. *)
Definition own_criteria (fuel : nat) (h : heap) (n : ref) : outcome (list (key * string)) :=
  o ← deref h n;
  fn ← fullName fuel h n;
  fp ← fullPath fuel h n;
  Ok [(KName, name o); (KFullName, fn); (KPath, path o); (KFullPath, fp); (KLabel, label o)].

(** The common shape of [fullName] and [fullPath]: the value inherited
    from the parent and the own field [f], empty parts dropped, joined
    with [sep]. *)
Fixpoint joined (sep : string) (f : Route → string) (fuel : nat) (h : heap) (this : ref) : outcome string :=
  match fuel with
  | O => Abort
  | S fuel' =>
      o ← deref h this;
      inherited ← match _parent o with
                  | Some p => n ← joined sep f fuel' h p; Ok (Some n)
                  | None => Ok None
                  end;
      Ok (join sep (omap present [inherited; Some (f o)]))
  end.

(** ** The matching semantics in the words of the specification

    The pattern is read as a sequence of runs: a dynamic run starts at
    [:] and ends before the next [/] or at the end of the pattern; every
    other character is a fixed run of its own. *)
Inductive run : Type :=
| Fixed (c : ascii)
| Dynamic.

Fixpoint runs (in_dynamic : bool) (pattern : string) : list run :=
  match pattern with
  | EmptyString => []
  | String c rest =>
      if in_dynamic then
        if Ascii.eqb c "/" then Fixed c :: runs false rest else runs true rest
      else if Ascii.eqb c ":" then Dynamic :: runs true rest
      else Fixed c :: runs false rest
  end.

(** The characters of [s] before its first [/], and the rest from that
    [/] on. *)
Fixpoint up_to_slash (s : string) : string :=
  match s with
  | EmptyString => EmptyString
  | String c rest => if Ascii.eqb c "/" then EmptyString else String c (up_to_slash rest)
  end.
Fixpoint from_slash (s : string) : string :=
  match s with
  | EmptyString => EmptyString
  | String c rest => if Ascii.eqb c "/" then s else from_slash rest
  end.

(** A fixed run matches its own character; a dynamic run matches one or
    more characters up to the next [/]; both strings end together. *)
Fixpoint consume (rs : list run) (s : string) : bool :=
  match rs with
  | [] => match s with EmptyString => true | _ => false end
  | Fixed c :: rs' =>
      match s with
      | String c' s' => Ascii.eqb c c' && consume rs' s'
      | EmptyString => false
      end
  | Dynamic :: rs' => nonempty (up_to_slash s) && consume rs' (from_slash s)
  end.

Definition consumes_exactly (pattern s : string) : bool := consume (runs false pattern) s.

(** No two [:] in a row in the pattern. *)
Fixpoint no_double_colon (pattern : string) : bool :=
  match pattern with
  | EmptyString => true
  | String c rest =>
      negb (Ascii.eqb c ":" && is_char (char_at rest 0) ":") && no_double_colon rest
  end.

(** ** Sample trees for the closed statements *)

(** The state after [new Router(definitions)], with fuel for the size of
    the definitions. *)
Definition built (definitions : list RouteDefinition) : state :=
  snd (new_Router (S (defs_size definitions)) definitions empty_state).

(** The built-in tree: object [0] is the router, [30] is [api.class]. *)
Definition site : state := built allRoutes_definitions.

(** One route with two dynamic segments. *)
Definition pair_definitions : list RouteDefinition :=
  [ Definition_ "Pair" "pair" (Some "/:a/:b") [] None ].

(** A small tree: [guide] with two pages, then [about]. *)
Definition small_definitions : list RouteDefinition :=
  [ section_ "Guide" "guide" [ page "Intro" "intro"; page "Usage" "usage" ];
    page "About" "about" ].

(** Two pages with the same name under the same parent, then a third. *)
Definition twin_definitions : list RouteDefinition :=
  [ Definition_ "First" "a" (Some "/x") [] None;
    Definition_ "Second" "a" (Some "/y") [] None;
    page "Third" "b" ].

(** The same page defined twice. *)
Definition duplicate_definitions : list RouteDefinition :=
  [ page "A" "a"; page "A" "a" ].

(** [small_definitions] built, then listeners registered on the router
    (tag 7) and on [guide] (tag 8). *)
Definition listening : state :=
  snd (onNewRoute 1 8 (snd (onNewRoute 0 7 (built small_definitions)))).

(** The state of [built definitions] after [router.activePath = a]. *)
Definition visiting (definitions : list RouteDefinition) (a : string) : state :=
  snd (set_activePath 0 a (built definitions)).

(** ** The tree a definition list describes *)

(** The references of the children built one after the other from [ds],
    the first at [k]: each definition takes as many references as it has
    definitions inside, itself included. *)
Fixpoint ids_from (k : nat) (ds : list RouteDefinition) : list nat :=
  match ds with
  | [] => []
  | d :: rest => k :: ids_from (k + def_size d) rest
  end.

(** [mirrors h owner n d]: the object [n] is what [add] makes of the
    definition [d] when called on [owner]: it has the label and the name
    of [d], its path or [/name] by default, its meta or the empty one, the
    parent [owner], and as children, in the order of [d]'s nested
    definitions, objects that mirror them. *)
Inductive mirrors (h : heap) : ref → ref → RouteDefinition → Prop :=
| mirrors_node owner n o l nm p ds m :
    h !! n = Some o →
    label o = l → name o = nm → path o = default ("/" ++ nm) p →
    meta o = default [] m →
    _parent o = Some owner →
    _routes o = ids_from (S n) ds →
    Forall2 (mirrors h n) (ids_from (S n) ds) ds →
    mirrors h owner n (Definition_ l nm p ds m).

(** A definition and the definitions nested in it, depth first. *)
Fixpoint preorder (d : RouteDefinition) : list RouteDefinition :=
  match d with
  | Definition_ _ _ _ ds _ => d :: flat_map preorder ds
  end.

Definition d_label (d : RouteDefinition) : string :=
  match d with Definition_ l _ _ _ _ => l end.
Definition d_name (d : RouteDefinition) : string :=
  match d with Definition_ _ nm _ _ _ => nm end.
(** The path [add] gives the object: [definition.path], or [/name] where
    the definition has none (line 340). *)
Definition d_path (d : RouteDefinition) : string :=
  match d with Definition_ _ nm p _ _ => default ("/" ++ nm) p end.
Definition d_routes (d : RouteDefinition) : list RouteDefinition :=
  match d with Definition_ _ _ _ ds _ => ds end.

(** A definition without nested routes. *)
Definition is_page (d : RouteDefinition) : bool :=
  match d_routes d with [] => true | _ => false end.

(** [shows h n d]: the object [n] carries the label, name and path of
    [d] and has as many children as [d] has nested definitions. *)
Definition shows (h : heap) (n : ref) (d : RouteDefinition) : Prop :=
  ∃ o, h !! n = Some o ∧ label o = d_label d ∧ name o = d_name d ∧ path o = d_path d ∧
       length (_routes o) = length (d_routes d).

(** * Properties *)

#[global] Arguments allRoutes : simpl never.
#[global] Arguments pages : simpl never.
#[global] Arguments activePage : simpl never.
#[global] Arguments located : simpl never.
#[global] Arguments matches : simpl never.
#[global] Arguments run_match : simpl never.
#[global] Arguments routerFor : simpl never.
#[global] Arguments Route_find : simpl never.
#[global] Arguments satisfies : simpl never.
#[global] Arguments notifications : simpl never.
#[global] Arguments own_criteria : simpl never.

(** ** Outcomes *)

Lemma bind_Ok {A B : Type} (m : outcome A) (f : A → outcome B) (b : B) :
  m ≫= f = Ok b ↔ ∃ a, m = Ok a ∧ f a = Ok b.
Proof.
  unfold mbind, outcome_bind. destruct m; split.
  all: try (intros (? & ? & ?); congruence).
  all: try discriminate.
  eauto.
Qed.

Lemma bind_Throw {A B : Type} (m : outcome A) (f : A → outcome B) (e : exn) :
  m ≫= f = Throw e ↔ m = Throw e ∨ ∃ a, m = Ok a ∧ f a = Throw e.
Proof.
  unfold mbind, outcome_bind. destruct m as [a|e'|]; split.
  - intros H. right. eauto.
  - intros [?|(? & ? & ?)]; congruence.
  - intros [= ->]. by left.
  - intros [?|(? & ? & ?)]; congruence.
  - discriminate.
  - intros [?|(? & ? & ?)]; congruence.
Qed.

Lemma deref_Ok (h : heap) (r : ref) (o : Route) : deref h r = Ok o ↔ h !! r = Some o.
Proof. unfold deref. destruct (h !! r); split; congruence. Qed.

(** ** The matcher terminates *)

Lemma length_after (s : string) (c : ascii) :
  String.length (after s c) ≤ String.length s - 1.
Proof.
  induction s as [|x s IH]; simpl; [lia|].
  destruct (Ascii.eqb x c); simpl; lia.
Qed.

Lemma match__total (fuel : nat) :
  ∀ dynamic fixed, String.length dynamic + String.length fixed < fuel →
    ∃ b, match_ fuel dynamic fixed = Some b.
Proof.
  induction fuel as [|fuel IH]; intros d f Hlt; [lia|].
  simpl.
  repeat match goal with
         | |- ∃ b, (if ?c then _ else _) = Some b => destruct c eqn:?
         end; eauto.
  - apply IH. destruct d as [|x d]; [discriminate|].
    pose proof (length_after (String x d) "/"). simpl in *. lia.
  - apply IH. destruct f as [|y f]; simpl in *.
    + rewrite andb_true_r in *. congruence.
    + lia.
  - apply IH. destruct d as [|x d]; [discriminate|].
    destruct f as [|y f]; [simpl in *; rewrite andb_false_r in *; discriminate|].
    pose proof (length_after (String x d) "/"). simpl in *. lia.
  - apply IH. destruct d as [|x d], f as [|y f]; simpl in *; try discriminate; lia.
Qed.

Lemma run_match_spec (dynamic fixed : string) :
  match_ (match_fuel dynamic fixed) dynamic fixed = Some (run_match dynamic fixed).
Proof.
  unfold run_match.
  destruct (match__total (match_fuel dynamic fixed) dynamic fixed) as [b Hb];
    [unfold match_fuel; lia|].
  by rewrite Hb.
Qed.

Lemma match__mono (fuel : nat) :
  ∀ fuel' dynamic fixed b, match_ fuel dynamic fixed = Some b → fuel ≤ fuel' →
    match_ fuel' dynamic fixed = Some b.
Proof.
  induction fuel as [|fuel IH]; intros fuel' d f b H Hle; [discriminate|].
  destruct fuel' as [|fuel']; [lia|].
  simpl in *.
  repeat match goal with
         | |- (if ?c then _ else _) = _ => destruct c
         end; try done; apply IH; auto; lia.
Qed.

(** ** [fullName] and [fullPath] *)

Lemma fullName_joined (fuel : nat) (h : heap) (this : ref) :
  fullName fuel h this = joined "." name fuel h this.
Proof.
  revert this. induction fuel as [|fuel IH]; intros this; [done|].
  simpl. destruct (deref h this) as [o| |]; simpl; try done.
  destruct (_parent o); [rewrite IH|]; done.
Qed.

Lemma fullPath_joined (fuel : nat) (h : heap) (this : ref) :
  fullPath fuel h this = joined "" path fuel h this.
Proof.
  revert this. induction fuel as [|fuel IH]; intros this; [done|].
  simpl. destruct (deref h this) as [o| |]; simpl; try done.
  destruct (_parent o); [rewrite IH|]; done.
Qed.

Lemma deref_cases (h : heap) (r : ref) :
  (∃ o, h !! r = Some o ∧ deref h r = Ok o) ∨ (h !! r = None ∧ deref h r = Abort).
Proof. unfold deref. destruct (h !! r); eauto. Qed.

Lemma joined_no_throw sep f (fuel : nat) (h : heap) (this : ref) (e : exn) :
  joined sep f fuel h this ≠ Throw e.
Proof.
  revert this. induction fuel as [|fuel IH]; intros this; [done|].
  simpl. destruct (deref_cases h this) as [(o & _ & ->)|[_ ->]]; simpl; [|done].
  destruct (_parent o) as [p|]; simpl; [|done].
  specialize (IH p). destruct (joined sep f fuel h p); simpl; congruence.
Qed.

Lemma joined_mono sep f (fuel : nat) :
  ∀ fuel' h this v, joined sep f fuel h this = Ok v → fuel ≤ fuel' →
    joined sep f fuel' h this = Ok v.
Proof.
  induction fuel as [|fuel IH]; intros fuel' h this v H Hle; [done|].
  destruct fuel' as [|fuel']; [lia|].
  simpl in *. destruct (deref h this) as [o| |]; simpl in *; try done.
  destruct (_parent o) as [p|]; simpl in *; [|done].
  destruct (joined sep f fuel h p) as [n| |] eqn:E; simpl in *; try done.
  rewrite (IH fuel' h p n); [done|done|lia].
Qed.

Lemma fullName_mono (fuel fuel' : nat) (h : heap) (this : ref) (v : string) :
  fullName fuel h this = Ok v → fuel ≤ fuel' → fullName fuel' h this = Ok v.
Proof. rewrite !fullName_joined. apply joined_mono. Qed.

Lemma fullPath_mono (fuel fuel' : nat) (h : heap) (this : ref) (v : string) :
  fullPath fuel h this = Ok v → fuel ≤ fuel' → fullPath fuel' h this = Ok v.
Proof. rewrite !fullPath_joined. apply joined_mono. Qed.

Lemma includes_contains (s : string) (c : ascii) :
  includes s c = true ↔ contains s c.
Proof.
  unfold contains. induction s as [|x s IH]; simpl.
  - split; [done|]. intros ([|? ?] & rest & H); discriminate.
  - destruct (Ascii.eqb_spec x c) as [->|Hne].
    + split; [|done]. intros _. by exists "", s.
    + rewrite IH. split.
      * intros (b & rest & ->). by exists (String x b), rest.
      * intros ([|y b] & rest & H); simplify_eq/=. eauto.
Qed.

(** ** [matches]: the candidate must carry no dynamic segment *)

(** C8.  [matches(s)] throws, and throws the "Cannot match" error, exactly
    when [s] contains [:]; a candidate with [:] never produces a boolean. *)
Theorem matches_throws_iff_dynamic_candidate (fuel : nat) (h : heap) (this : ref) (s : string) :
  (matches fuel h this s = Throw (Error (invalid_argument s)) ↔ contains s ":") ∧
  ((∃ e, matches fuel h this s = Throw e) ↔ contains s ":") ∧
  ((∃ b, matches fuel h this s = Ok b) → ¬ contains s ":").
Proof.
  rewrite <- includes_contains. unfold matches.
  destruct (includes s ":") eqn:E.
  - split; [done|]. split; [split; eauto|]. intros [b ?]. done.
  - assert (∀ e, (fullPath fuel h this ≫= λ pattern, Ok (run_match pattern s)) ≠ Throw e) as Hno.
    { intros e [H|(a & _ & H)]%bind_Throw; [|done].
      rewrite fullPath_joined in H. by apply joined_no_throw in H. }
    split; [split; [intros H; by apply Hno in H|done]|].
    split; [split; [intros [e H]; by apply Hno in H|done]|done].
Qed.

(** The three candidates of the specification's example, on any route
    whose [fullPath] is [/classes/:classSlug]. *)
Lemma matches_class_slug (fuel : nat) (h : heap) (this : ref) :
  fullPath fuel h this = Ok "/classes/:classSlug" →
  matches fuel h this "/classes/server" = Ok true ∧
  matches fuel h this "/classes/server/extra" = Ok false ∧
  matches fuel h this "/classes" = Ok false.
Proof. intros H. unfold matches. simpl. rewrite H. done. Qed.

(** On these three candidates the reading of the specification agrees. *)
Lemma consumes_class_slug :
  consumes_exactly "/classes/:classSlug" "/classes/server" = true ∧
  consumes_exactly "/classes/:classSlug" "/classes/server/extra" = false ∧
  consumes_exactly "/classes/:classSlug" "/classes" = false.
Proof. done. Qed.

(** C1.  [matches] accepts candidates that do not consume the pattern.
    The route [/:a/:b] matches [/x], although the fixed [/] and the second
    dynamic run of the pattern are left over; and [api.class] of the
    built-in tree, whose pattern is [/api/classes/:classSlug], matches
    [/api/classes/server/], although the final [/] of the candidate is
    left over. *)
Theorem matches_accepts_leftovers :
  (fullPath 2 (store (built pair_definitions)) 1 = Ok "/:a/:b" ∧
   matches 2 (store (built pair_definitions)) 1 "/x" = Ok true ∧
   consumes_exactly "/:a/:b" "/x" = false) ∧
  (fullPath 3 (store site) 30 = Ok "/api/classes/:classSlug" ∧
   matches 3 (store site) 30 "/api/classes/server/" = Ok true ∧
   consumes_exactly "/api/classes/:classSlug" "/api/classes/server/" = false).
Proof. vm_compute. done. Qed.

(** ** [activePath] *)

Lemma activePath_mono (fuel : nat) :
  ∀ fuel' h this v, activePath fuel h this = Ok v → fuel ≤ fuel' →
    activePath fuel' h this = Ok v.
Proof.
  induction fuel as [|fuel IH]; intros fuel' h this v H Hle; [done|].
  destruct fuel' as [|fuel']; [lia|].
  simpl in *. destruct (deref h this) as [o| |]; simpl in *; try done.
  destruct (_parent o) as [p|]; [|done]. apply IH; [done|lia].
Qed.

Lemma activePath_root_of (h : heap) (this r : ref) (o : Route) :
  root_of h this r → h !! r = Some o →
  ∃ k, ∀ fuel, k ≤ fuel → activePath fuel h this = Ok (_activePath o).
Proof.
  intros Hroot Hr. induction Hroot as [r o' Ho' Hp|n o' p r Hn Hp Hroot IH].
  - assert (o' = o) as -> by congruence.
    exists 1. intros [|fuel] ?; [lia|]. simpl.
    apply deref_Ok in Ho' as ->. simpl. by rewrite Hp.
  - destruct (IH Hr) as [k Hk]. exists (S k). intros [|fuel] ?; [lia|]. simpl.
    apply deref_Ok in Hn as ->. simpl. rewrite Hp. apply Hk. lia.
Qed.

Lemma root_of_with_activePath (h : heap) (a : string) (r : ref) (o : Route) (n : ref) :
  h !! r = Some o → root_of h n r → root_of (<[r := with_activePath a o]> h) n r.
Proof.
  intros Hr Hroot. induction Hroot as [r o' Ho' Hp|n o' p r Hn Hp Hroot IH].
  - assert (o' = o) as -> by congruence.
    eapply root_here; [apply list_lookup_insert_eq; by eapply lookup_lt_Some|done].
  - destruct (decide (n = r)) as [->|Hne].
    + assert (o' = o) as -> by congruence.
      eapply root_above; [apply list_lookup_insert_eq; by eapply lookup_lt_Some|exact Hp|auto].
    + apply (root_above _ n o' p r); [|exact Hp|auto].
      rewrite list_lookup_insert_ne; done.
Qed.

(** C7.  On an object with a parent the setter of [activePath] throws and
    the state stays as it was; on an object without parent it stores the
    value; the getter, on any object, returns what the root of that
    object stores, so that after a successful assignment on the root
    every object below it reads the assigned value. *)
Theorem activePath_held_by_root (s : state) (this : ref) (o : Route) (a : string) :
  store s !! this = Some o →
  (is_Some (_parent o) →
     set_activePath this a s = (Throw (Error invalid_operation), s)) ∧
  (_parent o = None →
     set_activePath this a s
       = (Ok tt, mkState (<[this := with_activePath a o]> (store s)) (trace s)) ∧
     ∀ n, root_of (store s) n this →
       ∃ k, ∀ fuel, k ≤ fuel →
         activePath fuel (store (snd (set_activePath this a s))) n = Ok (Some a)) ∧
  (∀ r ro, root_of (store s) this r → store s !! r = Some ro →
     ∃ k, ∀ fuel, k ≤ fuel → activePath fuel (store s) this = Ok (_activePath ro)).
Proof.
  intros Ho.
  assert (∀ s', read (fun h => parent h this) s' = (parent (store s') this, s')) as Hread by done.
  split; [|split].
  - intros [p Hp]. unfold set_activePath, mbind, M_bind. rewrite Hread.
    unfold parent. apply deref_Ok in Ho as ->. simpl. by rewrite Hp.
  - intros Hp.
    assert (set_activePath this a s
            = (Ok tt, mkState (<[this := with_activePath a o]> (store s)) (trace s))) as Hset.
    { unfold set_activePath, mbind, M_bind. rewrite Hread.
      unfold parent. pose proof Ho as Ho'. apply deref_Ok in Ho' as ->. simpl. rewrite Hp.
      unfold update. by rewrite Ho. }
    split; [done|]. intros n Hroot. rewrite Hset. simpl.
    apply (activePath_root_of _ n this (with_activePath a o)).
    + by apply root_of_with_activePath.
    + apply list_lookup_insert_eq. by eapply lookup_lt_Some.
  - intros r ro Hroot Hr. by eapply activePath_root_of.
Qed.

Lemma activePath_held_by_root_witness :
  set_activePath 2 "/guide/intro" (built small_definitions)
    = (Throw (Error invalid_operation), built small_definitions) ∧
  (∃ k, ∀ fuel, k ≤ fuel →
     activePath fuel (store (snd (set_activePath 0 "/guide/intro" (built small_definitions)))) 2
       = Ok (Some "/guide/intro")).
Proof.
  split.
  - apply (activePath_held_by_root (built small_definitions) 2
             (mkRoute "Intro" "intro" "/intro" [] None (Some 1) [] NoOp) "/guide/intro").
    + vm_compute. reflexivity.
    + exists 1. reflexivity.
  - apply (activePath_held_by_root (built small_definitions) 0
             (mkRoute "" "" "" [] None None [1; 4] NoOp) "/guide/intro").
    + vm_compute. reflexivity.
    + reflexivity.
    + apply (root_above _ 2 (mkRoute "Intro" "intro" "/intro" [] None (Some 1) [] NoOp) 1 0);
        [vm_compute; reflexivity|reflexivity|].
      apply (root_above _ 1 (mkRoute "Guide" "guide" "/guide" [] None (Some 0) [2; 3] NoOp) 0 0);
        [vm_compute; reflexivity|reflexivity|].
      apply (root_here _ 0 (mkRoute "" "" "" [] None None [1; 4] NoOp));
        [vm_compute; reflexivity|reflexivity].
Defined.

(** ** Array callbacks *)

Section ArrayFacts.
Context {A : Type}.
Implicit Types (p : A → outcome bool) (l : list A).

Lemma find_Some p l x : find p l = Ok (Some x) → x ∈ l ∧ p x = Ok true.
Proof.
  induction l as [|y l IH]; simpl; [done|].
  intros (b & Hb & H)%bind_Ok. destruct b.
  - injection H as ->. split; [left|done].
  - destruct (IH H). split; [by right|done].
Qed.

Lemma find_first p l i x :
  l !! i = Some x → p x = Ok true →
  (∀ j y, j < i → l !! j = Some y → p y = Ok false) →
  find p l = Ok (Some x).
Proof.
  revert i. induction l as [|y l IH]; intros i Hi Hx Hbefore; [done|].
  destruct i as [|i]; simpl in *.
  - injection Hi as ->. by rewrite Hx.
  - rewrite (Hbefore 0 y); [|lia|done]. simpl.
    apply (IH i); [done|done|]. intros j z ? ?. apply (Hbefore (S j)); [lia|done].
Qed.

Lemma find_None p l : (∀ x, x ∈ l → p x = Ok false) → find p l = Ok None.
Proof.
  induction l as [|y l IH]; intros H; [done|]. simpl.
  rewrite (H y); [|left]. simpl. apply IH. intros x ?. apply H. by right.
Qed.

Lemma find_total p l :
  (∀ x, x ∈ l → ∃ b, p x = Ok b) → ∃ r, find p l = Ok r.
Proof.
  induction l as [|y l IH]; intros H; [by eexists|]. simpl.
  destruct (H y) as [b ->]; [left|]. simpl. destruct b; [by eexists|].
  apply IH. intros x ?. apply H. by right.
Qed.

Lemma filter__sub p l l' : filter_ p l = Ok l' → l' ⊆ l.
Proof.
  revert l'. induction l as [|y l IH]; simpl; intros l'.
  - by intros [= <-].
  - intros (b & Hb & (kept & Hk & [= <-])%bind_Ok)%bind_Ok.
    specialize (IH kept Hk). destruct b; intros x Hx.
    + apply elem_of_cons in Hx as [->|Hx]; [left|right; by apply IH].
    + right. by apply IH.
Qed.

Lemma filter__total p l :
  (∀ x, x ∈ l → ∃ b, p x = Ok b) → ∃ l', filter_ p l = Ok l'.
Proof.
  induction l as [|y l IH]; intros H; [by eexists|]. simpl.
  destruct (H y) as [b ->]; [left|]. simpl.
  destruct IH as [kept ->]; [intros x ?; apply H; by right|]. simpl. by eexists.
Qed.
End ArrayFacts.

(** ** [allRoutes]: the objects below [this] *)

Lemma reduce_flatten_acc (g : ref → outcome (list ref)) (rs acc : list ref) :
  reduce (fun result route => sub ← g route; Ok (result ++ [route] ++ sub)%list) rs acc
  = (l ← reduce (fun result route => sub ← g route; Ok (result ++ [route] ++ sub)%list) rs [];
     Ok (acc ++ l)%list).
Proof.
  revert acc. induction rs as [|r rs IH]; intros acc; simpl.
  - by rewrite app_nil_r.
  - destruct (g r) as [sub| |]; simpl; [|done|done].
    rewrite IH. symmetry. rewrite IH. symmetry.
    destruct (reduce _ rs []); simpl; [|done|done].
    by rewrite <- app_assoc.
Qed.

Lemma flatten_nil (fuel : nat) (h : heap) : flatten (S fuel) h [] = Ok [].
Proof. done. Qed.

Lemma flatten_cons (fuel : nat) (h : heap) (r : ref) (rs : list ref) :
  flatten (S fuel) h (r :: rs)
  = (sub ← allRoutes fuel h r; rest ← flatten (S fuel) h rs; Ok (r :: sub ++ rest)%list).
Proof.
  unfold allRoutes. simpl.
  destruct (routes h r ≫= flatten fuel h) as [sub| |]; simpl; [|done|done].
  apply (reduce_flatten_acc (fun route => routes h route ≫= flatten fuel h)).
Qed.

Lemma flatten_cons_Ok (fuel : nat) (h : heap) (r : ref) (rs l : list ref) :
  flatten (S fuel) h (r :: rs) = Ok l ↔
  ∃ sub rest, allRoutes fuel h r = Ok sub ∧ flatten (S fuel) h rs = Ok rest ∧
              l = (r :: sub ++ rest)%list.
Proof.
  rewrite flatten_cons. split.
  - intros (sub & ? & (rest & ? & [= <-])%bind_Ok)%bind_Ok. eauto.
  - intros (sub & rest & -> & -> & ->). done.
Qed.

Lemma flatten_mono (fuel : nat) :
  ∀ fuel' h rs l, flatten fuel h rs = Ok l → fuel ≤ fuel' → flatten fuel' h rs = Ok l.
Proof.
  induction fuel as [|fuel IH]; intros fuel' h rs l H Hle; [done|].
  destruct fuel' as [|fuel']; [lia|].
  revert l H. induction rs as [|r rs IHrs]; intros l H; [done|].
  apply flatten_cons_Ok in H as (sub & rest & Hsub & Hrest & ->).
  apply flatten_cons_Ok. exists sub, rest. split; [|split; [auto|done]].
  unfold allRoutes in *. apply bind_Ok in Hsub as (rs' & Hrs' & Hsub).
  apply bind_Ok. exists rs'. split; [done|]. apply IH; [done|lia].
Qed.

Lemma allRoutes_mono (fuel fuel' : nat) (h : heap) (this : ref) (l : list ref) :
  allRoutes fuel h this = Ok l → fuel ≤ fuel' → allRoutes fuel' h this = Ok l.
Proof.
  unfold allRoutes. intros (rs & Hrs & H)%bind_Ok Hle.
  apply bind_Ok. exists rs. split; [done|]. by eapply flatten_mono.
Qed.

(** Whatever [flatten] lists has a shorter list of its own. *)
Lemma flatten_below (fuel : nat) :
  ∀ h rs l d, flatten fuel h rs = Ok l → d ∈ l →
    ∃ ld, allRoutes fuel h d = Ok ld ∧ length ld < length l.
Proof.
  induction fuel as [|fuel IH]; intros h rs; [done|].
  induction rs as [|r rs IHrs]; intros l d H Hd.
  - injection H as <-. by apply not_elem_of_nil in Hd.
  - apply flatten_cons_Ok in H as (sub & rest & Hsub & Hrest & ->).
    apply elem_of_cons in Hd as [->|[Hd|Hd]%elem_of_app].
    + exists sub. split; [apply (allRoutes_mono fuel); [done|lia]|].
      simpl. rewrite length_app. lia.
    + unfold allRoutes in Hsub. apply bind_Ok in Hsub as (rs' & _ & Hsub).
      destruct (IH h rs' sub d Hsub Hd) as (ld & Hld & Hlt).
      exists ld. split; [apply (allRoutes_mono fuel); [done|lia]|].
      simpl. rewrite length_app. lia.
    + destruct (IHrs rest d Hrest Hd) as (ld & Hld & Hlt).
      exists ld. split; [done|]. simpl. rewrite length_app. lia.
Qed.

Lemma flatten_descendant (fuel : nat) :
  ∀ h rs l d, flatten fuel h rs = Ok l → d ∈ l →
    d ∈ rs ∨ ∃ c, c ∈ rs ∧ descendant h c d.
Proof.
  induction fuel as [|fuel IH]; intros h rs; [done|].
  induction rs as [|r rs IHrs]; intros l d H Hd.
  - injection H as <-. by apply not_elem_of_nil in Hd.
  - apply flatten_cons_Ok in H as (sub & rest & Hsub & Hrest & ->).
    apply elem_of_cons in Hd as [->|[Hd|Hd]%elem_of_app].
    + left. left.
    + right. exists r. split; [left|].
      unfold allRoutes, routes in Hsub.
      apply bind_Ok in Hsub as (rs' & (o & Ho%deref_Ok & [= <-])%bind_Ok & Hsub).
      destruct (IH h _ sub d Hsub Hd) as [?|(c & ? & ?)].
      * by eapply descendant_child.
      * by eapply descendant_below.
    + destruct (IHrs rest d Hrest Hd) as [?|(c & ? & ?)].
      * left. by right.
      * right. exists c. split; [by right|done].
Qed.

Lemma allRoutes_descendant (fuel : nat) (h : heap) (this d : ref) (all : list ref) :
  allRoutes fuel h this = Ok all → d ∈ all → descendant h this d.
Proof.
  unfold allRoutes, routes.
  intros (rs & (o & Ho%deref_Ok & [= <-])%bind_Ok & H)%bind_Ok Hd.
  destruct (flatten_descendant fuel h _ all d H Hd) as [?|(c & ? & ?)].
  - by eapply descendant_child.
  - by eapply descendant_below.
Qed.

Lemma allRoutes_irreflexive (fuel : nat) (h : heap) (this : ref) (all : list ref) :
  allRoutes fuel h this = Ok all → this ∉ all.
Proof.
  intros Hall Hin. pose proof Hall as H.
  unfold allRoutes in H. apply bind_Ok in H as (rs & _ & H).
  destruct (flatten_below fuel h rs all this H Hin) as (ld & Hld & Hlt).
  rewrite Hall in Hld. injection Hld as <-. lia.
Qed.

Lemma allRoutes_valid (fuel : nat) (h : heap) (this d : ref) (all : list ref) :
  allRoutes fuel h this = Ok all → d ∈ all → d < length h.
Proof.
  intros Hall Hin.
  unfold allRoutes in Hall. apply bind_Ok in Hall as (rs & _ & H).
  destruct (flatten_below fuel h rs all d H Hin) as (ld & Hld & _).
  unfold allRoutes, routes in Hld.
  apply bind_Ok in Hld as (? & (o & Ho%deref_Ok & _)%bind_Ok & _).
  by eapply lookup_lt_Some.
Qed.

(** C10.  The enumerations and searches of [this] range over [allRoutes],
    the objects strictly below [this]: [this] is not among them; the pages
    are taken from them, so a childless object has none; [find] returns
    one of them, hence nothing when no object other than [this] satisfies
    the search; [routerFor] returns one of them with the wanted
    [fullPath], hence nothing when none of them has it. *)
Theorem searches_range_over_strict_descendants
    (fuel : nat) (h : heap) (this : ref) (all : list ref) :
  allRoutes fuel h this = Ok all →
  ((this ∉ all) ∧ ∀ d, d ∈ all → descendant h this d ∧ d ≠ this) ∧
  (∀ ps, pages fuel h this = Ok ps → ps ⊆ all) ∧
  (∀ o, h !! this = Some o → _routes o = [] → pages fuel h this = Ok []) ∧
  (∀ search found, Route_find fuel h this search = Ok (Some found) →
     found ∈ all ∧ satisfies fuel h search found = Ok true) ∧
  (∀ search, (∀ n, n < length h → n ≠ this → satisfies fuel h search n = Ok false) →
     Route_find fuel h this search = Ok None ∧ has fuel h this search = Ok false) ∧
  (∀ wanted found, routerFor fuel h this wanted = Ok (Some found) →
     found ∈ all ∧ fullPath fuel h found = Ok wanted) ∧
  (∀ wanted, (∀ d, d ∈ all → ∃ q, fullPath fuel h d = Ok q ∧ q ≠ wanted) →
     routerFor fuel h this wanted = Ok None).
Proof.
  intros Hall. pose proof (allRoutes_irreflexive _ _ _ _ Hall) as Hirr.
  repeat split.
  - done.
  - by eapply allRoutes_descendant.
  - intros ->. done.
  - intros ps. unfold pages. rewrite Hall. simpl. apply filter__sub.
  - intros o Ho Hleaf. unfold pages.
    assert (all = []) as ->; [|by rewrite Hall].
    unfold allRoutes, routes in Hall. apply deref_Ok in Ho. rewrite Ho in Hall.
    simpl in Hall. rewrite Hleaf in Hall. destruct fuel; [done|]. by injection Hall.
  - unfold Route_find in H. rewrite Hall in H. simpl in H. by apply find_Some in H as [? ?].
  - unfold Route_find in H. rewrite Hall in H. simpl in H. by apply find_Some in H as [? ?].
  - unfold Route_find. rewrite Hall. simpl. apply find_None.
    intros n Hn. apply H; [by eapply allRoutes_valid|]. by intros ->.
  - unfold has, Route_find. rewrite Hall. simpl. rewrite find_None; [done|].
    intros n Hn. apply H; [by eapply allRoutes_valid|]. by intros ->.
  - unfold routerFor in H. rewrite Hall in H. simpl in H. by apply find_Some in H as [? ?].
  - unfold routerFor in H. rewrite Hall in H. simpl in H. apply find_Some in H as [_ H].
    apply bind_Ok in H as (q & Hq & [= Heq]). by apply String.eqb_eq in Heq as ->.
  - intros wanted H. unfold routerFor. rewrite Hall. simpl. apply find_None.
    intros d Hd. destruct (H d Hd) as (q & -> & Hne). simpl.
    by apply String.eqb_neq in Hne as ->.
Qed.

Lemma searches_range_over_strict_descendants_witness :
  (1 ∉ [2; 3]) ∧
  Route_find 3 (store (built small_definitions)) 1 [(KName, "guide")] = Ok None ∧
  routerFor 3 (store (built small_definitions)) 1 "/guide" = Ok None.
Proof.
  assert (allRoutes 3 (store (built small_definitions)) 1 = Ok [2; 3]) as Hall
    by (vm_compute; reflexivity).
  pose proof (searches_range_over_strict_descendants
                3 (store (built small_definitions)) 1 [2; 3] Hall)
    as (Hirr & _ & _ & _ & Hfind & _ & Hfor).
  split; [apply Hirr|]. split.
  - apply Hfind. intros n Hn Hne.
    do 5 (destruct n as [|n]; [first [vm_compute; reflexivity|congruence]|]).
    vm_compute in Hn. lia.
  - apply Hfor. intros d Hd.
    apply elem_of_cons in Hd as [->|Hd].
    + exists "/guide/intro". split; [vm_compute; reflexivity|discriminate].
    + apply list_elem_of_singleton in Hd as ->.
      exists "/guide/usage". split; [vm_compute; reflexivity|discriminate].
Defined.

(** ** [previousPage] and [nextPage] *)

Lemma indexOf_first (l : list ref) (i : nat) (x : ref) :
  l !! i = Some x → (∀ j y, j < i → l !! j = Some y → y ≠ x) →
  indexOf l x = Z.of_nat i.
Proof.
  revert i. induction l as [|y l IH]; intros i Hi Hbefore; [done|].
  destruct i as [|i]; simpl in *.
  - injection Hi as ->. by rewrite Nat.eqb_refl.
  - destruct (Nat.eqb_spec y x) as [->|_]; [by destruct (Hbefore 0 x ltac:(lia) eq_refl)|].
    rewrite (IH i Hi); [|intros j z ? ?; apply (Hbefore (S j)); [lia|done]].
    destruct (Z.ltb_spec (Z.of_nat i) 0); lia.
Qed.

Lemma item_of_nat {A : Type} (l : list A) (i : nat) : item l (Z.of_nat i) = l !! i.
Proof.
  unfold item. destruct (Z.ltb_spec (Z.of_nat i) 0); [lia|]. by rewrite Nat2Z.id.
Qed.

(** C3, with the condition the lookup by [fullName] needs.  Let the
    active page [p] sit at index [i] of [pages], and let no page before it
    carry the [fullName] of [p].  Then [previousPage] is nothing for
    [i = 0] and [pages[i-1]] otherwise, and [nextPage] is [pages[i+1]],
    which is nothing at the last index. *)
Theorem neighbours_of_active_page
    (fuel : nat) (h : heap) (this : ref) (ps : list ref) (p : ref) (i : nat) (np : string) :
  pages fuel h this = Ok ps →
  activePage fuel h this = Ok (Some p) →
  ps !! i = Some p →
  fullName fuel h p = Ok np →
  (∀ j q, j < i → ps !! j = Some q → ∃ nq, fullName fuel h q = Ok nq ∧ nq ≠ np) →
  previousPage fuel h this = Ok (match i with O => None | S j => ps !! j end) ∧
  nextPage fuel h this = Ok (ps !! S i) ∧
  (i = 0 → previousPage fuel h this = Ok None) ∧
  (S i = length ps → nextPage fuel h this = Ok None).
Proof.
  intros Hps Hactive Hi Hnp Hbefore.
  assert (located fuel h this = Ok (Some p)) as Hloc.
  { unfold located. rewrite Hactive. simpl. rewrite Hps. simpl.
    apply (find_first _ _ i); [done| |].
    - rewrite Hnp. simpl. by rewrite String.eqb_refl.
    - intros j q Hj Hq. destruct (Hbefore j q Hj Hq) as (nq & -> & Hne). simpl.
      rewrite Hnp. simpl. by apply String.eqb_neq in Hne as ->. }
  assert (indexOf ps p = Z.of_nat i) as Hindex.
  { apply indexOf_first; [done|]. intros j q Hj Hq ->.
    destruct (Hbefore j p Hj Hq) as (nq & Hnq & Hne). congruence. }
  assert (previousPage fuel h this = Ok (match i with O => None | S j => ps !! j end)) as Hprev.
  { unfold previousPage. rewrite Hloc. simpl. rewrite Hps. simpl. rewrite Hindex.
    destruct i as [|j]; [done|].
    destruct (Z.ltb_spec 0 (Z.of_nat (S j))); [|lia].
    replace (Z.of_nat (S j) - 1)%Z with (Z.of_nat j) by lia.
    by rewrite item_of_nat. }
  assert (nextPage fuel h this = Ok (ps !! S i)) as Hnext.
  { unfold nextPage. rewrite Hloc. simpl. rewrite Hps. simpl. rewrite Hindex.
    apply lookup_lt_Some in Hi.
    destruct (Z.ltb_spec (Z.of_nat i) (Z.of_nat (length ps))); [|lia].
    replace (Z.of_nat i + 1)%Z with (Z.of_nat (S i)) by lia.
    by rewrite item_of_nat. }
  split; [done|]. split; [done|]. split.
  - intros ->. done.
  - intros Hlast. rewrite Hnext. f_equal. apply lookup_ge_None. lia.
Qed.

Lemma neighbours_of_active_page_witness :
  previousPage 4 (store (visiting small_definitions "/guide/usage/")) 0 = Ok (Some 2) ∧
  nextPage 4 (store (visiting small_definitions "/guide/usage/")) 0 = Ok (Some 4).
Proof.
  pose proof (neighbours_of_active_page
                4 (store (visiting small_definitions "/guide/usage/")) 0 [2; 3; 4] 3 1
                "guide.usage" eq_refl eq_refl eq_refl eq_refl) as H.
  destruct H as (Hprev & Hnext & _).
  - intros j q Hj Hq. destruct j as [|j]; [|lia].
    injection Hq as <-. by exists "guide.intro".
  - split; [exact Hprev|exact Hnext].
Defined.

(** With two pages of one [fullName] the lookup by name lands on the
    first of them.  In [twin_definitions] the pages are [[1; 2; 3]] and
    [/y] makes page [2], at index 1, the active one; [previousPage] is
    nothing instead of page [1], and [nextPage] is page [2] itself instead
    of page [3]. *)
Lemma neighbours_by_name_not_by_position :
  pages 3 (store (visiting twin_definitions "/y")) 0 = Ok [1; 2; 3] ∧
  activePage 3 (store (visiting twin_definitions "/y")) 0 = Ok (Some 2) ∧
  previousPage 3 (store (visiting twin_definitions "/y")) 0 = Ok None ∧
  previousPage 3 (store (visiting twin_definitions "/y")) 0 ≠ Ok ([1; 2; 3] !! 0) ∧
  nextPage 3 (store (visiting twin_definitions "/y")) 0 = Ok (Some 2) ∧
  nextPage 3 (store (visiting twin_definitions "/y")) 0 ≠ Ok ([1; 2; 3] !! 2).
Proof. vm_compute. repeat split; congruence. Qed.

(** ** State transformers, step by step *)

Lemma M_bind_run {A B : Type} (m : M A) (f : A → M B) (s s1 : state) (a : A) :
  m s = (Ok a, s1) → (m ≫= f) s = f a s1.
Proof. intros H. unfold mbind, M_bind. by rewrite H. Qed.

Lemma M_bind_Ok {A B : Type} (m : M A) (f : A → M B) (s s' : state) (b : B) :
  (m ≫= f) s = (Ok b, s') ↔ ∃ a s1, m s = (Ok a, s1) ∧ f a s1 = (Ok b, s').
Proof.
  unfold mbind, M_bind. destruct (m s) as [[a|e|] s1]; split.
  all: try (intros (? & ? & ? & ?); congruence).
  all: try discriminate.
  eauto.
Qed.

Lemma new_Route_plain (fuel : nat) (l n p : string) (m : option Meta) (s : state) :
  new_Route fuel (mkOptions l n p m None None) s
  = (Ok (length (store s)),
     mkState (store s ++ [mkRoute l n p (default [] m) None None [] NoOp])%list (trace s)).
Proof.
  unfold new_Route, set_routes, alloc, update, mbind, M_bind, mret, M_ret. simpl.
  rewrite list_lookup_middle; [|done]. simpl.
  rewrite insert_app_r_alt; [|done]. by rewrite Nat.sub_diag.
Qed.

Lemma set_parent_run (child p : ref) (s : state) (oc op : Route) :
  store s !! child = Some oc →
  <[child := with_parent p oc]> (store s) !! p = Some op →
  set_parent child p s
  = (Ok tt,
     mkState (if existsb (Nat.eqb child) (_routes op)
              then <[child := with_parent p oc]> (store s)
              else <[p := with_routes (_routes op ++ [child])%list op]>
                     (<[child := with_parent p oc]> (store s)))
             (trace s)).
Proof.
  intros Hc Hp. unfold set_parent, update, read, routes, deref, mbind, M_bind, mret, M_ret.
  rewrite Hc. simpl. rewrite Hp. simpl.
  destruct (existsb (Nat.eqb child) (_routes op)); [done|]. simpl. by rewrite Hp.
Qed.

Lemma set_parent_Ok (child p : ref) (s s' : state) (u : unit) :
  set_parent child p s = (Ok u, s') →
  ∃ oc op, store s !! child = Some oc ∧
           <[child := with_parent p oc]> (store s) !! p = Some op ∧
           set_parent child p s = (Ok tt, s').
Proof.
  intros H. destruct u.
  destruct (store s !! child) as [oc|] eqn:Hc.
  - destruct (<[child := with_parent p oc]> (store s) !! p) as [op|] eqn:Hp; [by eauto|].
    revert H. unfold set_parent, update, read, routes, deref, mbind, M_bind.
    rewrite Hc. simpl. by rewrite Hp.
  - revert H. unfold set_parent, update, mbind, M_bind. by rewrite Hc.
Qed.

Lemma notifications_cons (h : heap) (r : ref) (l : list ref) (route : ref) :
  notifications h (r :: l) route
  = (match _onNewRoute <$> h !! r with
     | Some (Callback tag) => [Called tag route]
     | _ => []
     end ++ notifications h l route)%list.
Proof.
  unfold notifications. simpl.
  destruct (_onNewRoute <$> h !! r) as [[|tag]|]; done.
Qed.

Lemma didCreateRoute_run (fuel : nat) :
  ∀ this l route s, ancestry (store s) this l → length l ≤ fuel →
    didCreateRoute fuel this route s
    = (Ok tt, mkState (store s) (trace s ++ notifications (store s) l route)%list).
Proof.
  induction fuel as [|fuel IH]; intros this l route [h t] Hanc Hlen.
  - destruct Hanc; simpl in Hlen; lia.
  - simpl in *.
    unfold read, call, parent, deref, mbind at 1 2 3 4, M_bind, mret, M_ret. simpl.
    destruct Hanc as [r o Ho Hp|n o p l Ho Hp Hanc]; rewrite Ho; simpl.
    + rewrite notifications_cons, Ho. simpl.
      destruct (_onNewRoute o); simpl; rewrite Ho; simpl; rewrite Hp.
      * by rewrite app_nil_r.
      * done.
    + rewrite notifications_cons, Ho. simpl in *.
      destruct (_onNewRoute o); simpl; rewrite Ho; simpl; rewrite Hp.
      * rewrite (IH p l route (mkState h t) Hanc); [done|lia].
      * rewrite (IH p l route (mkState h _) Hanc); [|lia]. simpl.
        by rewrite <- app_assoc.
Qed.

Lemma didCreateRoute_Ok (fuel : nat) :
  ∀ this route s s' u, didCreateRoute fuel this route s = (Ok u, s') →
    ∃ l, ancestry (store s) this l ∧ length l ≤ fuel ∧
         s' = mkState (store s) (trace s ++ notifications (store s) l route)%list.
Proof.
  induction fuel as [|fuel IH]; intros this route [h t] s' u H; [done|].
  simpl in H.
  unfold read, call, parent, deref, mbind at 1 2 3 4, M_bind, mret, M_ret in H. simpl in H.
  destruct (h !! this) as [o|] eqn:Ho; simpl in H; [|done].
  assert (∀ t', match _parent o with
                | Some p => didCreateRoute fuel p route
                | None => λ s : state, (Ok (), s)
                end (mkState h t') = (Ok u, s') →
          ∃ l, ancestry h this l ∧ length l ≤ S fuel ∧
               s' = mkState h (t' ++ notifications h (List.tl l) route)%list) as Hrest.
  { intros t' H'. destruct (_parent o) as [p|] eqn:Hp.
    - apply IH in H' as (l & Hanc & Hlen & ->). simpl in *.
      exists (this :: l). split; [by eapply ancestry_child|]. split; [simpl; lia|done].
    - injection H' as _ <-. exists [this]. split; [by eapply ancestry_root|].
      split; [simpl; lia|]. simpl. by rewrite app_nil_r. }
  destruct (_onNewRoute o) as [|tag] eqn:Hl; simpl in H; rewrite Ho in H; simpl in H.
  - apply Hrest in H as (l & Hanc & Hlen & ->). exists l. split; [done|]. split; [done|].
    simpl. destruct Hanc as [r o' Ho' Hp'|n o' p l Ho' Hp' Hanc];
      rewrite notifications_cons, Ho; simpl; by rewrite Hl.
  - apply Hrest in H as (l & Hanc & Hlen & ->). exists l. split; [done|]. split; [done|].
    simpl. destruct Hanc as [r o' Ho' Hp'|n o' p l Ho' Hp' Hanc];
      rewrite notifications_cons, Ho; simpl; rewrite Hl; simpl; by rewrite <- app_assoc.
Qed.

(** ** Joining names along the ancestry *)

Lemma append_assoc (a b c : string) : (a ++ b) ++ c = a ++ (b ++ c).
Proof. induction a as [|x a IH]; simpl; [done|]. by rewrite IH. Qed.

Lemma join_snoc (sep : string) (l : list string) (y : string) :
  l ≠ [] → join sep (l ++ [y]) = join sep l ++ sep ++ y.
Proof.
  induction l as [|x l IH]; intros Hne; [done|].
  destruct l as [|x' l]; [done|].
  change (join sep ((x :: x' :: l) ++ [y])) with (x ++ sep ++ join sep ((x' :: l) ++ [y])).
  rewrite IH; [|done].
  change (join sep (x :: x' :: l)) with (x ++ sep ++ join sep (x' :: l)).
  by rewrite !append_assoc.
Qed.

Lemma join_filter_nonempty (sep : string) (l : list string) :
  List.filter nonempty l ≠ [] → join sep (List.filter nonempty l) ≠ "".
Proof.
  induction l as [|x l IH]; simpl; [done|].
  destruct x as [|c x]; simpl; [done|]. intros _.
  destruct (List.filter nonempty l); simpl; done.
Qed.

(** One step of [fullName]: joining the inherited name with the own one
    extends the join over the ancestors. *)
Lemma join_inherited (sep : string) (xs : list string) (y : string) :
  join sep (omap present [Some (join sep (List.filter nonempty xs)); Some y])
  = join sep (List.filter nonempty (xs ++ [y])).
Proof.
  rewrite List.filter_app.
  destruct (List.filter nonempty xs) as [|x kept] eqn:E.
  - simpl. by destruct y.
  - assert (join sep (x :: kept) ≠ "") as Hne.
    { rewrite <- E. apply join_filter_nonempty. by rewrite E. }
    destruct (join sep (x :: kept)) as [|c j] eqn:Ej; [done|].
    destruct y as [|d y]; simpl List.filter.
    + rewrite app_nil_r, Ej. done.
    + rewrite join_snoc, Ej; done.
Qed.

Lemma fields_snoc (f : Route → string) (h : heap) (l : list ref) (n : ref) (o : Route) :
  h !! n = Some o → fields f h (l ++ [n]) = (fields f h l ++ [f o])%list.
Proof. intros Ho. unfold fields. rewrite omap_app. simpl. by rewrite Ho. Qed.

Lemma joined_ancestry (sep : string) (f : Route → string) (h : heap) (n : ref) (l : list ref) :
  ancestry h n l →
  ∀ fuel, length l ≤ fuel →
    joined sep f fuel h n = Ok (join sep (List.filter nonempty (fields f h (reverse l)))).
Proof.
  induction 1 as [r o Ho Hp|n o p l Ho Hp Hanc IH]; intros [|fuel] Hlen; simpl in Hlen; try lia.
  - simpl. apply deref_Ok in Ho as Hd. rewrite Hd. simpl. rewrite Hp. simpl.
    unfold fields. simpl. rewrite Ho. simpl. by destruct (f o).
  - simpl. apply deref_Ok in Ho as Hd. rewrite Hd. simpl. rewrite Hp.
    rewrite (IH fuel); [|lia]. simpl mbind.
    rewrite reverse_cons, (fields_snoc f h _ n o Ho).
    apply f_equal, join_inherited.
Qed.

(** ** Stores in allocation order: every getter returns *)

Lemma ancestry_ordered (h : heap) :
  ordered h → ∀ n, n < length h →
    ∃ l, ancestry h n l ∧ length l ≤ S n ∧ (attached h → last l = Some 0).
Proof.
  intros Hord n. induction n as [n IH] using lt_wf_ind. intros Hn.
  destruct (lookup_lt_is_Some_2 h n Hn) as [o Ho].
  destruct (_parent o) as [p|] eqn:Hp.
  - assert (p < n) as Hlt by (by eapply (Hord n o)).
    destruct (IH p Hlt) as (l & Hanc & Hlen & Hlast); [lia|].
    exists (n :: l). split; [by eapply ancestry_child|]. split; [simpl; lia|].
    intros Hatt. destruct Hanc; simpl; auto.
  - exists [n]. split; [by eapply ancestry_root|]. split; [simpl; lia|].
    intros Hatt. destruct n as [|n]; [done|].
    destruct (Hatt (S n) o Ho) as [? ?]; [lia|congruence].
Qed.

Lemma joined_total (sep : string) (f : Route → string) (fuel : nat) (h : heap) (n : ref) :
  ordered h → n < length h → n < fuel → ∃ v, joined sep f fuel h n = Ok v.
Proof.
  intros Hord Hn Hfuel.
  destruct (ancestry_ordered h Hord n Hn) as (l & Hanc & Hlen & _).
  eexists. apply (joined_ancestry sep f h n l Hanc). lia.
Qed.

Lemma flatten_total (h : heap) :
  ordered h →
  ∀ fuel k rs, (∀ c, c ∈ rs → k ≤ c ∧ c < length h) → length h - k < fuel →
    ∃ l, flatten fuel h rs = Ok l.
Proof.
  intros Hord fuel. induction fuel as [|fuel IH]; intros k rs Hrs Hfuel; [lia|].
  induction rs as [|r rs IHrs]; [by eexists|].
  destruct (Hrs r) as [Hk Hr]; [left|].
  destruct (lookup_lt_is_Some_2 h r Hr) as [o Ho].
  destruct (IH (S r) (_routes o)) as [sub Hsub].
  { intros c Hc. destruct (Hord r o Ho) as [_ Hch]. specialize (Hch c Hc). lia. }
  { lia. }
  destruct IHrs as [rest Hrest]; [intros c ?; apply Hrs; by right|].
  exists (r :: sub ++ rest)%list. apply flatten_cons_Ok. exists sub, rest.
  split; [|done]. unfold allRoutes, routes. apply deref_Ok in Ho. rewrite Ho. done.
Qed.

Lemma allRoutes_total (fuel : nat) (h : heap) (this : ref) :
  ordered h → this < length h → length h ≤ fuel → ∃ all, allRoutes fuel h this = Ok all.
Proof.
  intros Hord Hthis Hfuel.
  destruct (lookup_lt_is_Some_2 h this Hthis) as [o Ho].
  unfold allRoutes, routes. apply deref_Ok in Ho as Hd. rewrite Hd. simpl.
  apply (flatten_total h Hord fuel (S this)); [|lia].
  intros c Hc. destruct (Hord this o Ho) as [_ Hch]. specialize (Hch c Hc). lia.
Qed.

Lemma pages_total (fuel : nat) (h : heap) (this : ref) :
  ordered h → this < length h → length h ≤ fuel → ∃ ps, pages fuel h this = Ok ps.
Proof.
  intros Hord Hthis Hfuel.
  destruct (allRoutes_total fuel h this Hord Hthis Hfuel) as [all Hall].
  unfold pages. rewrite Hall. simpl. apply filter__total.
  intros d Hd. pose proof (allRoutes_valid _ _ _ _ _ Hall Hd) as Hlt.
  destruct (lookup_lt_is_Some_2 h d Hlt) as [o Ho].
  unfold routes. apply deref_Ok in Ho as ->. by eexists.
Qed.

(** ** Building the tree *)

Lemma RouteDefinition_nested_ind (P : RouteDefinition → Prop) :
  (∀ l n p rs m, Forall P rs → P (Definition_ l n p rs m)) → ∀ d, P d.
Proof.
  intros step. fix IH 1. intros [l n p rs m]. apply step.
  induction rs as [|c cs IHcs]; constructor; [apply IH|exact IHcs].
Qed.

Lemma ordered_snoc (h : heap) (o : Route) :
  ordered h → _parent o = None → _routes o = [] → ordered (h ++ [o]).
Proof.
  intros Hord Hp Hr i oi Hi. rewrite length_app. simpl.
  apply lookup_snoc_Some in Hi as [[Hlt Hi]|[-> <-]].
  - destruct (Hord i oi Hi) as [H1 H2]. split; [done|].
    intros c Hc. specialize (H2 c Hc). lia.
  - rewrite Hp, Hr. split; [done|]. intros c Hc. by apply not_elem_of_nil in Hc.
Qed.

Lemma ordered_insert (h : heap) (i : ref) (o' : Route) :
  ordered h →
  (∀ p, _parent o' = Some p → p < i) →
  (∀ c, c ∈ _routes o' → i < c ∧ c < length h) →
  ordered (<[i := o']> h).
Proof.
  intros Hord Hp Hr j oj Hj. rewrite length_insert.
  destruct (decide (i = j)) as [->|Hne].
  - apply list_lookup_insert_Some in Hj as [(_ & <- & _)|[? _]]; done.
  - rewrite list_lookup_insert_ne in Hj; [|done]. by apply Hord.
Qed.

Lemma existsb_eqb_false (x : ref) (l : list ref) :
  x ∉ l → existsb (Nat.eqb x) l = false.
Proof.
  induction l as [|y l IH]; intros Hx; [done|]. simpl.
  apply not_elem_of_cons in Hx as [Hne Hx].
  apply Nat.eqb_neq in Hne as ->. by apply IH.
Qed.

Lemma with_routes_own (o : Route) : with_routes (_routes o) o = o.
Proof. by destruct o. Qed.

Lemma extends_refl (this : ref) (s : state) : ordered (store s) → extends this 0 s s.
Proof.
  intros Hord. split; [done|]. split; [lia|]. split; [done|]. split.
  - intros o Ho. exists (_routes o). by rewrite with_routes_own.
  - intros i o Hi Ho. apply lookup_lt_Some in Ho. lia.
Qed.

Lemma extends_trans (this : ref) (k1 k2 : nat) (s s1 s2 : state) :
  this < length (store s) →
  extends this k1 s s1 → extends this k2 s1 s2 → extends this (k1 + k2) s s2.
Proof.
  intros Hthis (_ & Hlen1 & Hframe1 & Hthis1 & Hnew1) (Hord2 & Hlen2 & Hframe2 & Hthis2 & Hnew2).
  split; [done|]. split; [lia|]. split; [by auto|]. split.
  - intros o Ho. destruct (Hthis1 o Ho) as [rs1 H1].
    destruct (Hthis2 _ H1) as [rs2 H2]. by exists rs2.
  - intros i o Hi Ho.
    destruct (decide (i < length (store s1))) as [Hlt|Hge].
    + destruct (lookup_lt_is_Some_2 _ _ Hlt) as [o1 Ho1].
      assert (store s2 !! i = Some o1) as Ho2 by (apply Hframe2; [done|lia]).
      assert (o = o1) as -> by congruence. by eapply Hnew1.
    + eapply Hnew2; [|done]. lia.
Qed.

(** A run of [add] calls on [this], given that each call behaves. *)
Lemma forEach_add_extends (fuel : nat) (this : ref) (ds : list RouteDefinition) :
  Forall (fun d => ∀ s, ordered (store s) → this < length (store s) →
                     length (store s) + def_size d ≤ fuel →
                     ∃ s', add fuel d this s = (Ok (length (store s)), s') ∧
                           extends this (def_size d) s s') ds →
  ∀ s, ordered (store s) → this < length (store s) →
    length (store s) + defs_size ds ≤ fuel →
    ∃ s', forEach (fun d => add fuel d this ;; mret tt) ds s = (Ok tt, s') ∧
          extends this (defs_size ds) s s'.
Proof.
  induction 1 as [|d ds Hd _ IH]; intros s Hord Hthis Hfuel.
  - exists s. split; [done|]. by apply extends_refl.
  - unfold defs_size in *. simpl in *.
    destruct (Hd s Hord Hthis) as (s1 & Hadd & Hext1); [lia|].
    pose proof Hext1 as (Hord1 & Hlen1 & _).
    destruct (IH s1 Hord1) as (s2 & Hrest & Hext2); [lia|lia|].
    exists s2. split; [|by eapply extends_trans].
    unfold mbind at 1, M_bind. unfold mbind at 1, M_bind. rewrite Hadd. done.
Qed.

Lemma add_extends (definition : RouteDefinition) :
  ∀ fuel this s, ordered (store s) → this < length (store s) →
    length (store s) + def_size definition ≤ fuel →
    ∃ s', add fuel definition this s = (Ok (length (store s)), s') ∧
          extends this (def_size definition) s s'.
Proof.
  induction definition as [l n p ds m IHds] using RouteDefinition_nested_ind.
  intros fuel this s Hord Hthis Hfuel. simpl in Hfuel.
  set (node := mkRoute l n (default ("/" ++ n) p) (default [] (Some (default [] m))) None None [] NoOp).
  set (s1 := mkState (store s ++ [node])%list (trace s)).
  assert (length (store s1) = S (length (store s))) as Hlen1.
  { simpl. rewrite length_app. simpl. lia. }
  destruct (forEach_add_extends fuel (length (store s)) ds) with (s := s1)
    as (s2 & Hchildren & Hord2 & Hlen2 & Hframe2 & Hnode2 & Hnew2).
  { eapply Forall_impl; [exact IHds|]. intros d Hd s0 ? ? ?. by apply Hd. }
  { by apply ordered_snoc. }
  { lia. }
  { fold (defs_size ds) in Hfuel. lia. }
  destruct (Hnode2 node) as [rs Hn2]; [by apply list_lookup_middle|].
  destruct (lookup_lt_is_Some_2 _ _ Hthis) as [othis Hothis].
  assert (store s2 !! this = Some othis) as Hthis2.
  { apply Hframe2; [|lia]. by apply lookup_app_l_Some. }
  assert (length (store s) ∉ _routes othis) as Hfresh.
  { intros Hin. destruct (Hord this othis Hothis) as [_ Hch]. specialize (Hch _ Hin). lia. }
  set (h1 := <[length (store s) := with_parent this (with_routes rs node)]> (store s2)).
  set (h3 := <[this := with_routes (_routes othis ++ [length (store s)])%list othis]> h1).
  assert (h1 !! this = Some othis) as Hthis1.
  { unfold h1. rewrite list_lookup_insert_ne; [done|lia]. }
  assert (ordered h1) as Hord1.
  { apply ordered_insert; [done| |].
    - intros q [= <-]. done.
    - intros c Hc. destruct (Hord2 _ _ Hn2) as [_ Hch]. by apply Hch. }
  assert (ordered h3) as Hord3.
  { apply ordered_insert; [done| |].
    - intros q Hq. destruct (Hord1 _ _ Hthis1) as [Hp _]. by apply Hp.
    - intros c [Hc| ->%list_elem_of_singleton]%elem_of_app.
      + destruct (Hord1 _ _ Hthis1) as [_ Hch]. by apply Hch.
      + unfold h1. rewrite length_insert. lia. }
  assert (length h3 = length (store s) + S (defs_size ds)) as Hlen3.
  { unfold h3, h1. rewrite !length_insert. lia. }
  destruct (ancestry_ordered h3 Hord3 this) as (chain & Hchain & Hchainlen & _); [lia|].
  exists (mkState h3 (trace s2 ++ notifications h3 chain (length (store s)))%list).
  split.
  - simpl.
    rewrite (M_bind_run _ _ s s1 (length (store s))); [|apply new_Route_plain].
    rewrite (M_bind_run _ _ s1 s2 tt); [|exact Hchildren].
    rewrite (M_bind_run _ _ s2 (mkState h3 (trace s2)) tt).
    + rewrite (M_bind_run _ _ (mkState h3 (trace s2))
                 (mkState h3 (trace s2 ++ notifications h3 chain (length (store s)))%list) tt);
        [done|].
      apply (didCreateRoute_run fuel this chain _ (mkState h3 (trace s2))); [done|lia].
    + rewrite (set_parent_run _ _ s2 (with_routes rs node) othis Hn2 Hthis1).
      simpl. by rewrite (existsb_eqb_false _ _ Hfresh).
  - split; [done|]. split; [simpl; fold (defs_size ds); lia|]. split; [|split].
    + intros i o Ho Hne. simpl. unfold h3, h1.
      pose proof (lookup_lt_Some _ _ _ Ho) as Hlt.
      rewrite !list_lookup_insert_ne; [|lia|done].
      apply Hframe2; [|lia]. by apply lookup_app_l_Some.
    + intros o Ho. assert (o = othis) as -> by congruence.
      eexists. simpl. unfold h3. apply list_lookup_insert_eq.
      unfold h1. rewrite length_insert. by eapply lookup_lt_Some.
    + intros i o Hi Ho. simpl in Ho. unfold h3 in Ho.
      rewrite list_lookup_insert_ne in Ho; [|lia].
      destruct (decide (i = length (store s))) as [->|Hne].
      * unfold h1 in Ho. apply list_lookup_insert_Some in Ho as [(_ & <- & _)|[? _]]; done.
      * unfold h1 in Ho. rewrite list_lookup_insert_ne in Ho; [|done].
        eapply Hnew2; [|done]. lia.
Qed.

(** [new Router(definitions)] returns, and its store is in allocation
    order with every object but the router attached. *)
Lemma new_Router_ordered (definitions : list RouteDefinition) (fuel : nat) :
  defs_size definitions < fuel →
  ∃ s root, new_Router fuel definitions empty_state = (Ok 0, s) ∧
            ordered (store s) ∧ attached (store s) ∧
            length (store s) = S (defs_size definitions) ∧
            store s !! 0 = Some root ∧ _parent root = None ∧
            label root = "" ∧ name root = "" ∧ path root = "".
Proof.
  intros Hfuel.
  set (root := mkRoute "" "" "" [] None None [] NoOp).
  set (s1 := mkState [root] []).
  destruct (forEach_add_extends fuel 0 definitions) with (s := s1)
    as (s2 & Hrun & Hord & Hlen & _ & Hroot & Hnew).
  { apply Forall_forall. intros d _ s ? ? ?. by apply add_extends. }
  { apply (ordered_snoc [] root); [|done|done]. intros i o Hi. done. }
  { simpl. lia. }
  { simpl. lia. }
  destruct (Hroot root eq_refl) as [rs Hrs].
  exists s2, (with_routes rs root). split; [|split; [done|]].
  - unfold new_Router.
    rewrite (M_bind_run _ _ empty_state s1 0); [|apply new_Route_plain].
    by rewrite (M_bind_run _ _ s1 s2 tt).
  - split; [|split; [simpl in Hlen; lia|done]].
    intros i o Ho Hi. eapply Hnew; [|done]. simpl. lia.
Qed.

(** C4.  In the tree built by [new Router(definitions)], for every object
    [n] with ancestry [l] (which ends at the router, object [0]):
    [fullName] is the names of [reverse l], the ancestors from the root
    down to [n], joined by [.] with the empty names skipped, and
    [fullPath] is their paths concatenated with the empty ones skipped. *)
Theorem fullName_fullPath_of_built_tree (definitions : list RouteDefinition) (fuel : nat) :
  defs_size definitions < fuel →
  ∃ s, new_Router fuel definitions empty_state = (Ok 0, s) ∧
       ∀ n, n < length (store s) →
         ∃ l, ancestry (store s) n l ∧ last l = Some 0 ∧
              fullName fuel (store s) n
                = Ok (join "." (List.filter nonempty (fields name (store s) (reverse l)))) ∧
              fullPath fuel (store s) n
                = Ok (join "" (List.filter nonempty (fields path (store s) (reverse l)))).
Proof.
  intros Hfuel.
  destruct (new_Router_ordered definitions fuel Hfuel)
    as (s & root & Hnew & Hord & Hatt & Hlen & _).
  exists s. split; [done|]. intros n Hn.
  destruct (ancestry_ordered (store s) Hord n Hn) as (l & Hanc & Hl & Hlast).
  exists l. split; [done|]. split; [by apply Hlast|].
  rewrite fullName_joined, fullPath_joined.
  split; apply joined_ancestry; try done; lia.
Qed.

Lemma fullName_fullPath_of_built_tree_witness :
  ∃ s, new_Router 5 small_definitions empty_state = (Ok 0, s) ∧
       ∀ n, n < length (store s) →
         ∃ l, ancestry (store s) n l ∧ last l = Some 0 ∧
              fullName 5 (store s) n
                = Ok (join "." (List.filter nonempty (fields name (store s) (reverse l)))) ∧
              fullPath 5 (store s) n
                = Ok (join "" (List.filter nonempty (fields path (store s) (reverse l)))).
Proof.
  apply (fullName_fullPath_of_built_tree small_definitions 5).
  vm_compute. lia.
Defined.

(** ** [find] with an object's own values *)

Lemma own_criteria_total (fuel : nat) (h : heap) (n : ref) :
  ordered h → n < length h → n < fuel → ∃ c, own_criteria fuel h n = Ok c.
Proof.
  intros Hord Hn Hfuel. unfold own_criteria.
  destruct (lookup_lt_is_Some_2 h n Hn) as [o Ho]. apply deref_Ok in Ho as ->. simpl.
  rewrite fullName_joined, fullPath_joined.
  destruct (joined_total "." name fuel h n Hord Hn Hfuel) as [fn ->].
  destruct (joined_total "" path fuel h n Hord Hn Hfuel) as [fp ->].
  by eexists.
Qed.

(** One comparison of [satisfies]: equal values go on to the next key,
    different ones end the search object's test with [false]. *)
Ltac compare_entry a b :=
  destruct (String.eqb_spec a b) as [->|?]; simpl;
  [|eexists; split; [done|split; [done|intros [=]; done]]].

Lemma satisfies_own_criteria (fuel : nat) (h : heap) (n q : ref) (c cq : list (key * string)) :
  own_criteria fuel h n = Ok c → own_criteria fuel h q = Ok cq →
  ∃ b, satisfies fuel h c q = Ok b ∧ (b = true ↔ cq = c).
Proof.
  unfold own_criteria.
  intros (o & Ho & (fn & Hfn & (fp & Hfp & [= <-])%bind_Ok)%bind_Ok)%bind_Ok.
  intros (oq & Hoq & (fnq & Hfnq & (fpq & Hfpq & [= <-])%bind_Ok)%bind_Ok)%bind_Ok.
  unfold satisfies, every, property. simpl. rewrite Hoq, Hfnq, Hfpq. simpl.
  compare_entry (name o) (name oq).
  compare_entry fn fnq.
  compare_entry (path o) (path oq).
  compare_entry fp fpq.
  compare_entry (label o) (label oq).
  by eexists.
Qed.

Lemma find_earliest {A : Type} (p : A → outcome bool) (l : list A) :
  (∀ y, y ∈ l → ∃ b, p y = Ok b) →
  ∀ i x, l !! i = Some x → p x = Ok true →
    ∃ j m, j ≤ i ∧ l !! j = Some m ∧ find p l = Ok (Some m) ∧ p m = Ok true ∧
           ∀ j' q, j' < j → l !! j' = Some q → p q = Ok false.
Proof.
  induction l as [|y l IH]; intros Htotal i x Hi Hx; [done|].
  destruct (Htotal y) as [[|] Hy]; [left| |].
  - exists 0, y. split; [lia|]. split; [done|]. simpl. rewrite Hy. simpl.
    split; [done|]. split; [done|]. intros; lia.
  - destruct i as [|i]; [simpl in Hi; congruence|]. simpl in Hi.
    destruct (IH (fun z Hz => Htotal z (list_elem_of_further _ _ _ Hz)) i x Hi Hx)
      as (j & m & Hj & Hm & Hfind & Hpm & Hbefore).
    exists (S j), m. split; [lia|]. split; [done|]. simpl. rewrite Hy. simpl.
    split; [done|]. split; [done|].
    intros [|j'] q Hlt Hq; simpl in Hq; [congruence|]. apply (Hbefore j'); [lia|done].
Qed.

(** C6, as the code has it.  In the tree built by [new Router(definitions)],
    searching from the router with the five values of an object [n] below
    it returns the first object, in the order of [allRoutes], that has
    these five values; that object is [n] itself when no object before [n]
    has them. *)
Theorem find_own_criteria_returns_first (definitions : list RouteDefinition) (fuel : nat) :
  defs_size definitions < fuel →
  ∃ s all, new_Router fuel definitions empty_state = (Ok 0, s) ∧
           allRoutes fuel (store s) 0 = Ok all ∧
    ∀ i n, all !! i = Some n →
      ∃ c j m, own_criteria fuel (store s) n = Ok c ∧
               Route_find fuel (store s) 0 c = Ok (Some m) ∧
               j ≤ i ∧ all !! j = Some m ∧
               own_criteria fuel (store s) m = Ok c ∧
               (∀ j' q, j' < j → all !! j' = Some q → own_criteria fuel (store s) q ≠ Ok c) ∧
               ((∀ j' q, j' < i → all !! j' = Some q → own_criteria fuel (store s) q ≠ Ok c) →
                m = n).
Proof.
  intros Hfuel.
  destruct (new_Router_ordered definitions fuel Hfuel)
    as (s & root & Hnew & Hord & Hatt & Hlen & _).
  destruct (allRoutes_total fuel (store s) 0 Hord) as [all Hall]; [lia|lia|].
  exists s, all. split; [done|]. split; [done|]. intros i n Hi.
  assert (∀ q, q ∈ all → ∃ cq, own_criteria fuel (store s) q = Ok cq) as Htotal.
  { intros q Hq. pose proof (allRoutes_valid _ _ _ _ _ Hall Hq).
    apply own_criteria_total; [done|done|lia]. }
  destruct (Htotal n) as [c Hc]; [by eapply list_elem_of_lookup_2|].
  destruct (find_earliest (satisfies fuel (store s) c) all) with (i := i) (x := n)
    as (j & m & Hj & Hm & Hfind & Hpm & Hbefore).
  { intros q Hq. destruct (Htotal q Hq) as [cq Hcq].
    destruct (satisfies_own_criteria _ _ n q c cq Hc Hcq) as (b & Hb & _). by exists b. }
  { done. }
  { destruct (satisfies_own_criteria _ _ n n c c Hc Hc) as (b & Hb & Hiff).
    rewrite Hb. f_equal. by apply Hiff. }
  assert (own_criteria fuel (store s) m = Ok c) as Hcm.
  { destruct (Htotal m) as [cm Hcm]; [by eapply list_elem_of_lookup_2|].
    destruct (satisfies_own_criteria _ _ n m c cm Hc Hcm) as (b & Hb & Hiff).
    rewrite Hcm. f_equal. apply Hiff. congruence. }
  exists c, j, m. split; [done|]. split; [|split; [done|split; [done|split; [done|split]]]].
  - unfold Route_find. by rewrite Hall.
  - intros j' q Hlt Hq Hcq.
    destruct (satisfies_own_criteria _ _ n q c c Hc Hcq) as (b & Hb & Hiff).
    rewrite (Hbefore j' q Hlt Hq) in Hb. injection Hb as <-.
    by destruct Hiff as [_ Hiff]; specialize (Hiff eq_refl).
  - intros Huniq. destruct (decide (j = i)) as [->|Hne]; [congruence|].
    destruct (Huniq j m); [lia|done|done].
Qed.

Lemma find_own_criteria_returns_first_witness :
  ∃ s all, new_Router 5 small_definitions empty_state = (Ok 0, s) ∧
           allRoutes 5 (store s) 0 = Ok all ∧
    ∀ i n, all !! i = Some n →
      ∃ c j m, own_criteria 5 (store s) n = Ok c ∧
               Route_find 5 (store s) 0 c = Ok (Some m) ∧
               j ≤ i ∧ all !! j = Some m ∧
               own_criteria 5 (store s) m = Ok c ∧
               (∀ j' q, j' < j → all !! j' = Some q → own_criteria 5 (store s) q ≠ Ok c) ∧
               ((∀ j' q, j' < i → all !! j' = Some q → own_criteria 5 (store s) q ≠ Ok c) →
                m = n).
Proof.
  apply (find_own_criteria_returns_first small_definitions 5).
  vm_compute. lia.
Defined.

(** With [duplicate_definitions] the objects below the router are
    [[1; 2]], both with the same five values: the search with the values
    of object [2] returns object [1].  The search with the values of the
    router itself returns nothing. *)
Lemma find_own_criteria_misses :
  allRoutes 3 (store (built duplicate_definitions)) 0 = Ok [1; 2] ∧
  (∃ c, own_criteria 3 (store (built duplicate_definitions)) 2 = Ok c ∧
        Route_find 3 (store (built duplicate_definitions)) 0 c = Ok (Some 1) ∧
        Route_find 3 (store (built duplicate_definitions)) 0 c ≠ Ok (Some 2)) ∧
  (∃ c, own_criteria 3 (store (built duplicate_definitions)) 0 = Ok c ∧
        Route_find 3 (store (built duplicate_definitions)) 0 c = Ok None ∧
        Route_find 3 (store (built duplicate_definitions)) 0 c ≠ Ok (Some 0)).
Proof.
  split; [done|]. split; eexists; (split; [vm_compute; reflexivity|]); vm_compute; split; congruence.
Qed.

(** ** The notifications of [add] *)

Lemma preserved_refl (s : state) : preserved s s.
Proof. intros i o Ho. by exists o. Qed.

Lemma preserved_trans (s s1 s2 : state) :
  preserved s s1 → preserved s1 s2 → preserved s s2.
Proof.
  intros H1 H2 i o Ho. destruct (H1 i o Ho) as (o1 & Ho1 & Hl1 & Hp1).
  destruct (H2 i o1 Ho1) as (o2 & Ho2 & Hl2 & Hp2). exists o2. split; [done|]. split; congruence.
Qed.

Lemma preserved_length (s s' : state) : preserved s s' → length (store s) ≤ length (store s').
Proof.
  intros H. destruct (decide (length (store s) = 0)) as [|Hne]; [lia|].
  destruct (lookup_lt_is_Some_2 (store s) (length (store s) - 1)) as [o Ho]; [lia|].
  destruct (H _ o Ho) as (o' & Ho' & _). apply lookup_lt_Some in Ho'. lia.
Qed.

Lemma emits_refl (s : state) : emits s s.
Proof. exists []. split; [by rewrite app_nil_r|constructor]. Qed.

Lemma emits_trans (s s1 s2 : state) :
  length (store s) ≤ length (store s1) → emits s s1 → emits s1 s2 → emits s s2.
Proof.
  intros Hlen (e1 & Ht1 & He1) (e2 & Ht2 & He2). exists (e1 ++ e2)%list.
  split; [by rewrite Ht2, Ht1, app_assoc|].
  apply Forall_app. split; [done|]. eapply Forall_impl; [exact He2|]. simpl. intros; lia.
Qed.

Lemma forEach_add_effect (fuel : nat) (this : ref) (ds : list RouteDefinition) :
  Forall (fun d => ∀ s n s', this < length (store s) →
                     add fuel d this s = (Ok n, s') →
                     preserved s s' ∧ emits s s') ds →
  ∀ s s' u, this < length (store s) →
    forEach (fun d => add fuel d this ;; mret tt) ds s = (Ok u, s') →
    preserved s s' ∧ emits s s'.
Proof.
  induction 1 as [|d ds Hd _ IH]; intros s s' u Hthis Hrun.
  - injection Hrun as _ <-. split; [apply preserved_refl|apply emits_refl].
  - simpl in Hrun.
    apply M_bind_Ok in Hrun as ([] & s1 & Hfirst & Hrest).
    apply M_bind_Ok in Hfirst as (n & s1' & Hadd & [= ->]).
    destruct (Hd s n s1 Hthis Hadd) as [Hp1 He1].
    pose proof (preserved_length _ _ Hp1) as Hlen.
    destruct (IH s1 s' u) as [Hp2 He2]; [lia|done|].
    split; [by eapply preserved_trans|by eapply emits_trans].
Qed.

Lemma notifications_subject (h : heap) (l : list ref) (route : ref) :
  Forall (fun e => subject e = route) (notifications h l route).
Proof.
  induction l as [|r l IH]; [constructor|].
  rewrite notifications_cons. apply Forall_app. split; [|done].
  destruct (_onNewRoute <$> h !! r) as [[|tag]|]; repeat constructor.
Qed.

Lemma ancestry_insert_routes (h : heap) (i : ref) (o : Route) (rs : list ref) (n : ref) (l : list ref) :
  h !! i = Some o → ancestry h n l → ancestry (<[i := with_routes rs o]> h) n l.
Proof.
  intros Hi. induction 1 as [r o' Ho' Hp|n o' p l Ho' Hp Hanc IH].
  - destruct (decide (i = r)) as [->|Hne].
    + assert (o' = o) as -> by congruence.
      apply (ancestry_root _ r (with_routes rs o)); [|done].
      apply list_lookup_insert_eq. by eapply lookup_lt_Some.
    + apply (ancestry_root _ r o'); [|done]. by rewrite list_lookup_insert_ne.
  - destruct (decide (i = n)) as [->|Hne].
    + assert (o' = o) as -> by congruence.
      apply (ancestry_child _ n (with_routes rs o) p); [|done|done].
      apply list_lookup_insert_eq. by eapply lookup_lt_Some.
    + apply (ancestry_child _ n o' p); [|done|done]. by rewrite list_lookup_insert_ne.
Qed.

Lemma notifications_insert_routes (h : heap) (i : ref) (o : Route) (rs : list ref)
    (l : list ref) (route : ref) :
  h !! i = Some o →
  notifications (<[i := with_routes rs o]> h) l route = notifications h l route.
Proof.
  intros Hi. induction l as [|r l IH]; [done|].
  rewrite !notifications_cons, IH. f_equal.
  destruct (decide (i = r)) as [->|Hne].
  - rewrite list_lookup_insert_eq; [|by eapply lookup_lt_Some]. by rewrite Hi.
  - by rewrite list_lookup_insert_ne.
Qed.

Lemma add_effect (definition : RouteDefinition) :
  ∀ fuel this s n s', this < length (store s) →
    add fuel definition this s = (Ok n, s') →
    (preserved s s' ∧ emits s s') ∧ notified this s n s'.
Proof.
  induction definition as [l nm p ds m IHds] using RouteDefinition_nested_ind.
  intros fuel this s n s' Hthis Hadd. simpl in Hadd.
  apply M_bind_Ok in Hadd as (n' & s1 & Hnew & Hadd).
  rewrite new_Route_plain in Hnew. injection Hnew as <- <-.
  set (node := mkRoute l nm (default ("/" ++ nm) p) (default [] (Some (default [] m))) None None [] NoOp) in *.
  set (s1 := mkState (store s ++ [node])%list (trace s)) in *.
  apply M_bind_Ok in Hadd as ([] & s2 & Hchildren & Hadd).
  apply M_bind_Ok in Hadd as ([] & s3 & Hparent & Hadd).
  apply M_bind_Ok in Hadd as ([] & s4 & Hnotify & [= <- <-]).
  assert (length (store s1) = S (length (store s))) as Hlen1.
  { simpl. rewrite length_app. simpl. lia. }
  destruct (forEach_add_effect fuel (length (store s)) ds) with (s := s1) (s' := s2) (u := tt)
    as [Hp12 (evs & Hevs & Hsub)]; [|lia|done|].
  { eapply Forall_impl; [exact IHds|]. intros d Hd s0 n0 s0' ? ?. by eapply Hd. }
  assert (Forall (fun e => length (store s) < subject e) evs) as Hsub'.
  { eapply Forall_impl; [exact Hsub|]. intros e He. cbv beta in He. rewrite Hlen1 in He. lia. }
  destruct (Hp12 (length (store s)) node) as (node2 & Hnode2 & Hl2 & Hp2);
    [by apply list_lookup_middle|].
  apply set_parent_Ok in Hparent as (oc & op & Hoc & Hop & Hparent).
  assert (oc = node2) as -> by congruence.
  rewrite (set_parent_run _ _ s2 node2 op Hoc Hop) in Hparent.
  set (h1 := <[length (store s) := with_parent this node2]> (store s2)) in *.
  assert (preserved s s2) as Hp02.
  { intros i o Ho. apply (Hp12 i o). by apply lookup_app_l_Some. }
  assert (h1 !! length (store s) = Some (with_parent this node2)) as Hn1.
  { apply list_lookup_insert_eq. by eapply lookup_lt_Some. }
  assert (∀ i o, i ≠ length (store s) → store s2 !! i = Some o →
            ∃ o', store s3 !! i = Some o' ∧ _onNewRoute o' = _onNewRoute o ∧
                  _parent o' = _parent o) as Hp23.
  { intros i o Hne Ho.
    assert (h1 !! i = Some o) as Hi1 by (unfold h1; by rewrite list_lookup_insert_ne).
    injection Hparent as <-.
    destruct (existsb (Nat.eqb (length (store s))) (_routes op)); simpl; [by exists o|].
    destruct (decide (this = i)) as [->|Hne'].
    - assert (op = o) as -> by congruence.
      eexists. split; [apply list_lookup_insert_eq; by eapply lookup_lt_Some|done].
    - exists o. by rewrite list_lookup_insert_ne. }
  assert (store s3 !! length (store s) = Some (with_parent this node2)) as Hn3.
  { injection Hparent as <-.
    destruct (existsb (Nat.eqb (length (store s))) (_routes op)); simpl; [done|].
    rewrite list_lookup_insert_ne; [done|lia]. }
  assert (trace s3 = trace s2) as Ht3 by (by injection Hparent as <-).
  apply didCreateRoute_Ok in Hnotify as (chain & Hchain & _ & ->). simpl.
  split; [split|].
  - intros i o Ho. destruct (Hp02 i o Ho) as (o2 & Ho2 & Hlo2 & Hpo2).
    destruct (Hp23 i o2) as (o3 & Ho3 & Hlo3 & Hpo3);
      [apply lookup_lt_Some in Ho; lia|done|].
    exists o3. split; [done|]. split; congruence.
  - exists (evs ++ notifications (store s3) chain (length (store s)))%list. simpl.
    split; [by rewrite Ht3, Hevs, app_assoc|].
    apply Forall_app. split.
    + eapply Forall_impl; [exact Hsub'|]. intros e He. cbv beta in *. lia.
    + eapply Forall_impl; [apply notifications_subject|]. intros e He. cbv beta in *. lia.
  - exists (with_parent this node2), chain, evs.
    split; [done|]. split; [done|]. split; [done|]. split; [by simpl; rewrite Hl2|].
    split; [by eapply ancestry_child|]. split.
    + rewrite Ht3, Hevs. simpl. rewrite <- app_assoc. do 2 f_equal.
      rewrite notifications_cons, Hn3. simpl. by rewrite Hl2.
    + eapply Forall_impl; [exact Hsub'|]. intros e He. cbv beta in *. lia.
Qed.

(** C2.  When [add], called on an existing object [this], returns the new
    object [n]: the calls about [n] are the last of the trace and they are
    the listeners along the ancestry of [n] at that moment, first the
    listener of [n] itself, then the one of its parent [this], and so on
    up to the root, each called with [n], skipping the objects on which no
    listener was registered.  [n] itself, just created, is one of those.
    On a store in allocation order [add] does return, given fuel for the
    size of the store it builds. *)
Theorem add_notifies_up_the_ancestry
    (fuel : nat) (definition : RouteDefinition) (this : ref) (s : state) :
  this < length (store s) →
  (∀ n s', add fuel definition this s = (Ok n, s') →
     ∃ node chain earlier,
       n = length (store s) ∧
       store s' !! n = Some node ∧ _parent node = Some this ∧ _onNewRoute node = NoOp ∧
       ancestry (store s') n (n :: chain) ∧
       trace s' = (trace s ++ earlier ++ notifications (store s') (n :: chain) n)%list ∧
       Forall (fun e => subject e ≠ n) earlier) ∧
  (ordered (store s) → length (store s) + def_size definition ≤ fuel →
     ∃ n s', add fuel definition this s = (Ok n, s')).
Proof.
  intros Hthis. split.
  - intros n s' Hadd. by destruct (add_effect definition fuel this s n s' Hthis Hadd).
  - intros Hord Hfuel.
    destruct (add_extends definition fuel this s Hord Hthis Hfuel) as (s' & Hadd & _).
    by eexists _, _.
Qed.

Lemma add_notifies_up_the_ancestry_witness :
  ∃ node chain earlier,
    5 = length (store listening) ∧
    store (snd (add 6 (page "New" "new") 1 listening)) !! 5 = Some node ∧
    _parent node = Some 1 ∧ _onNewRoute node = NoOp ∧
    ancestry (store (snd (add 6 (page "New" "new") 1 listening))) 5 (5 :: chain) ∧
    trace (snd (add 6 (page "New" "new") 1 listening))
      = (trace listening ++ earlier ++
         notifications (store (snd (add 6 (page "New" "new") 1 listening))) (5 :: chain) 5)%list ∧
    Forall (fun e => subject e ≠ 5) earlier.
Proof.
  assert (1 < length (store listening)) as Hthis by (vm_compute; lia).
  apply (proj1 (add_notifies_up_the_ancestry 6 (page "New" "new") 1 listening Hthis) 5).
  vm_compute. reflexivity.
Defined.

(** On that input the trace reads: the listener of [guide], the parent,
    then the listener of the router. *)
Lemma add_trace_example :
  trace (snd (add 6 (page "New" "new") 1 listening)) = [Called 8 5; Called 7 5].
Proof. reflexivity. Qed.

(** A nested definition is built before its parent is attached: the
    creation of the inner page reaches no listener of the router. *)
Lemma add_nested_trace_example :
  trace (snd (add 7 (section_ "More" "more" [page "Inner" "inner"]) 0 listening))
  = [Called 7 5].
Proof. reflexivity. Qed.

(** ** [set routes]: one owner at a time *)




(** The constructor goes through the same setter. *)
Lemma new_Route_conflict_example :
  fst (new_Route 5 (mkOptions "Other" "other" "/other" None (Some [2]) None)
         (built small_definitions))
  = Throw (Error "Cannot add guide.intro to other, because it already belongs to guide").
Proof. reflexivity. Qed.

(** The setter of [parent] makes no such check: after [intro.parent = about]
    the page [intro] is a child of both [guide] and [about]. *)
Lemma set_parent_unchecked_example :
  fst (set_parent 2 4 (built small_definitions)) = Ok tt ∧
  routes (store (snd (set_parent 2 4 (built small_definitions)))) 1 = Ok [2; 3] ∧
  routes (store (snd (set_parent 2 4 (built small_definitions)))) 4 = Ok [2] ∧
  parent (store (snd (set_parent 2 4 (built small_definitions)))) 2 = Ok (Some 4).
Proof. done. Qed.

(** ** [activePage] *)

Lemma includes_strip (s : string) :
  includes (strip_trailing_slashes s) ":" = includes s ":".
Proof.
  induction s as [|c s IH]; [done|]. simpl.
  destruct (strip_trailing_slashes s) as [|k ks].
  - simpl in IH. rewrite <- IH.
    destruct (Ascii.eqb_spec c "/") as [->|?]; [done|]. simpl. by destruct (Ascii.eqb c ":").
  - simpl in *. by rewrite IH.
Qed.

(** C9, as the code has it.  On a root of an allocation-ordered store,
    with enough fuel: [pages] returns; with no page, [activePage] is
    nothing whatever [activePath] is; with a page and [activePath] never
    assigned, it fails with a [TypeError]; with a page and an assigned
    [activePath] containing [:], it fails with the error of [matches];
    with an assigned [activePath] without [:], it returns. *)
Theorem activePage_defined_when (fuel : nat) (h : heap) (this : ref) (o : Route) :
  ordered h → h !! this = Some o → _parent o = None → length h < fuel →
  ∃ ps, pages fuel h this = Ok ps ∧
        (ps = [] → activePage fuel h this = Ok None) ∧
        (ps ≠ [] → _activePath o = None → activePage fuel h this = Throw TypeError) ∧
        (∀ a, ps ≠ [] → _activePath o = Some a → contains a ":" →
              activePage fuel h this
                = Throw (Error (invalid_argument (strip_trailing_slashes a)))) ∧
        (∀ a, _activePath o = Some a → ¬ contains a ":" →
              ∃ r, activePage fuel h this = Ok r).
Proof.
  intros Hord Ho Hroot Hfuel.
  pose proof (lookup_lt_Some _ _ _ Ho) as Hthis.
  destruct (pages_total fuel h this Hord Hthis) as [ps Hps]; [lia|].
  assert (activePath fuel h this = Ok (_activePath o)) as Hactive.
  { destruct fuel; [lia|]. simpl. apply deref_Ok in Ho as ->. simpl. by rewrite Hroot. }
  exists ps. split; [done|]. unfold activePage. rewrite Hps, Hactive. simpl.
  split; [by intros ->|]. split; [|split].
  - intros Hne ->. destruct ps; [done|]. done.
  - intros a Hne -> Hcolon. destruct ps as [|x ps]; [done|]. simpl.
    unfold matches. apply includes_contains in Hcolon.
    rewrite includes_strip, Hcolon. done.
  - intros a -> Hcolon. apply find_total. intros x Hx.
    unfold matches. rewrite includes_strip.
    destruct (includes a ":") eqn:E; [by apply includes_contains in E|].
    unfold pages in Hps. apply bind_Ok in Hps as (all & Hall & Hfilter).
    apply filter__sub in Hfilter. apply Hfilter in Hx.
    pose proof (allRoutes_valid _ _ _ _ _ Hall Hx) as Hlt.
    rewrite fullPath_joined.
    destruct (joined_total "" path fuel h x Hord Hlt) as [fp ->]; [lia|].
    by eexists.
Qed.

Lemma activePage_defined_when_witness :
  ∃ r, activePage 6 (store (visiting small_definitions "/guide/usage/")) 0 = Ok r.
Proof.
  destruct (activePage_defined_when 6 (store (visiting small_definitions "/guide/usage/")) 0
              (with_activePath "/guide/usage/"
                 (mkRoute "" "" "" [] None None [1; 4] NoOp)))
    as (ps & _ & _ & _ & _ & Hreturns).
  - pose proof (new_Router_ordered small_definitions 5 ltac:(vm_compute; lia))
      as (s & root & Hnew & Hord & _).
    assert (s = built small_definitions) as ->.
    { unfold built. change (S (defs_size small_definitions)) with 5. by rewrite Hnew. }
    change (store (visiting small_definitions "/guide/usage/"))
      with (<[0 := with_activePath "/guide/usage/" (mkRoute "" "" "" [] None None [1; 4] NoOp)]>
              (store (built small_definitions))).
    apply ordered_insert; [done|done|].
    intros c Hc. by apply (Hord 0 (mkRoute "" "" "" [] None None [1; 4] NoOp)).
  - reflexivity.
  - reflexivity.
  - vm_compute. lia.
  - apply (Hreturns "/guide/usage/"); [reflexivity|].
    intros Hc. by apply includes_contains in Hc.
Defined.

(** A router without definitions has no page: [activePage] is nothing
    although [activePath] was never assigned.  And after
    [router.activePath = "/guide/:page"] on the small tree, [activePage]
    throws although [activePath] was assigned. *)
Lemma activePage_not_as_stated :
  (activePath 2 (store (built [])) 0 = Ok None ∧
   activePage 2 (store (built [])) 0 = Ok None) ∧
  (activePath 6 (store (visiting small_definitions "/guide/:page")) 0 = Ok (Some "/guide/:page") ∧
   activePage 6 (store (visiting small_definitions "/guide/:page")) 0
     = Throw (Error "Cannot match /guide/:page, it needs to be a valid URL with no dynamic segments")).
Proof. done. Qed.

(** ** Further properties of the getters *)

(** [isDynamic] is true exactly when the own [path] contains [:]. *)
Theorem isDynamic_iff_colon (h : heap) (this : ref) (o : Route) :
  h !! this = Some o →
  ∃ b, isDynamic h this = Ok b ∧ (b = true ↔ contains (path o) ":").
Proof.
  intros Ho. exists (includes (path o) ":"). unfold isDynamic.
  apply deref_Ok in Ho as ->. split; [done|]. apply includes_contains.
Qed.

Lemma isDynamic_iff_colon_witness :
  ∃ b, isDynamic (store site) 30 = Ok b ∧ (b = true ↔ contains "/classes/:classSlug" ":").
Proof.
  apply (isDynamic_iff_colon (store site) 30
           (mkRoute "Class" "class" "/classes/:classSlug" [] None (Some 29) [] NoOp)).
  vm_compute. reflexivity.
Defined.

Lemma filter__spec {A : Type} (p : A → outcome bool) (q : A → bool) (l l' : list A) :
  (∀ x, x ∈ l → ∀ b, p x = Ok b → b = q x) →
  filter_ p l = Ok l' → l' = List.filter q l.
Proof.
  revert l'. induction l as [|y l IH]; intros l' Hq; simpl.
  - by intros [= <-].
  - intros (b & Hb & (kept & Hk & [= <-])%bind_Ok)%bind_Ok.
    rewrite <- (Hq y (list_elem_of_here _ _) b Hb).
    rewrite (IH kept); [done| |done].
    intros x Hx. apply Hq. by right.
Qed.

(** [pages] is [allRoutes] restricted to the objects without children,
    in the same order. *)
Theorem pages_are_the_leaves (fuel : nat) (h : heap) (this : ref) (ps : list ref) :
  pages fuel h this = Ok ps →
  ∃ all, allRoutes fuel h this = Ok all ∧
         ps = List.filter (fun r => match h !! r with
                                    | Some o => (length (_routes o) =? 0)%nat
                                    | None => false
                                    end) all ∧
         ∀ p, p ∈ ps → ∃ o, h !! p = Some o ∧ _routes o = [].
Proof.
  unfold pages. intros (all & Hall & Hfilter)%bind_Ok.
  exists all. split; [done|].
  assert (ps = List.filter (fun r => match h !! r with
                                     | Some o => (length (_routes o) =? 0)%nat
                                     | None => false
                                     end) all) as Heq.
  { eapply filter__spec; [|exact Hfilter]. intros x _ b.
    unfold routes, deref. destruct (h !! x); simpl; [|done]. by intros [= <-]. }
  split; [done|]. intros p Hp. rewrite Heq in Hp.
  apply list_elem_of_In, List.filter_In in Hp as [_ Hp].
  destruct (h !! p) as [o|]; [|done]. exists o. split; [done|].
  apply Nat.eqb_eq in Hp. by destruct (_routes o).
Qed.

Lemma pages_are_the_leaves_witness :
  ∃ all, allRoutes 5 (store (built small_definitions)) 0 = Ok all ∧
         [2; 3; 4] = List.filter (fun r => match store (built small_definitions) !! r with
                                           | Some o => (length (_routes o) =? 0)%nat
                                           | None => false
                                           end) all ∧
         ∀ p, p ∈ [2; 3; 4] → ∃ o, store (built small_definitions) !! p = Some o ∧ _routes o = [].
Proof.
  apply (pages_are_the_leaves 5 (store (built small_definitions)) 0 [2; 3; 4]).
  vm_compute. reflexivity.
Defined.

(** The matcher returns: with the fuel of [run_match] or more, [match_]
    gives the boolean [run_match] reports. *)
Theorem match__returns (dynamic fixed : string) (fuel : nat) :
  match_fuel dynamic fixed ≤ fuel → match_ fuel dynamic fixed = Some (run_match dynamic fixed).
Proof. intros Hle. eapply match__mono; [apply run_match_spec|done]. Qed.

Lemma match__returns_witness :
  match_ 40 "/classes/:classSlug" "/classes/server" = Some true.
Proof.
  apply (match__returns "/classes/:classSlug" "/classes/server" 40).
  vm_compute. lia.
Defined.

(** [has] reports whether [find] finds. *)
Theorem has_mirrors_find (fuel : nat) (h : heap) (this : ref) (search : list (key * string)) :
  (∀ r, Route_find fuel h this search = Ok r →
        has fuel h this search = Ok (match r with Some _ => true | None => false end)) ∧
  (∀ b, has fuel h this search = Ok b →
        ∃ r, Route_find fuel h this search = Ok r ∧ (b = true ↔ is_Some r)).
Proof.
  unfold has. split.
  - by intros r ->.
  - intros b (r & Hr & [= <-])%bind_Ok. exists r. split; [done|].
    destruct r; split; first [done|by eexists|by intros [? ?]].
Qed.

(** The example of the specification: with
    [activePath = "/docs/main-concepts/database/"] on the built-in tree
    the active page is [docs.main-concepts.database]; its neighbours are
    [orm] and [shorthands]. *)
Lemma activePage_database_example :
  activePage 41 (store (visiting allRoutes_definitions "/docs/main-concepts/database/")) 0
    = Ok (Some 11) ∧
  fullName 41 (store (visiting allRoutes_definitions "/docs/main-concepts/database/")) 11
    = Ok "docs.main-concepts.database" ∧
  (previousPage 41 (store (visiting allRoutes_definitions "/docs/main-concepts/database/")) 0
     ≫= from_option (fullName 41 (store site)) (Ok ""))
    = Ok "docs.main-concepts.shorthands" ∧
  (nextPage 41 (store (visiting allRoutes_definitions "/docs/main-concepts/database/")) 0
     ≫= from_option (fullName 41 (store site)) (Ok ""))
    = Ok "docs.main-concepts.orm".
Proof. vm_compute. done. Qed.

(** ** The matcher against the reading of the specification

    [matches_accepts_leftovers] shows candidates the matcher accepts
    although they do not consume the pattern.  The converse holds: what
    consumes the pattern is accepted, for patterns without [::]. *)

Lemma match__agrees (fuel : nat) (dynamic fixed : string) (b : bool) :
  match_ fuel dynamic fixed = Some b → run_match dynamic fixed = b.
Proof.
  intros H. pose proof (run_match_spec dynamic fixed) as Hrun.
  apply (match__mono _ (fuel + match_fuel dynamic fixed)) in H; [|lia].
  apply (match__mono _ (fuel + match_fuel dynamic fixed)) in Hrun; [|lia].
  congruence.
Qed.

Lemma after_without (q : string) (c : ascii) : includes q c = false → after q c = "".
Proof.
  induction q as [|x q IH]; simpl; [done|]. destruct (Ascii.eqb x c); [done|auto].
Qed.

Lemma runs_in_dynamic (q : string) :
  runs true q = if includes q "/" then Fixed "/" :: runs false (after q "/") else [].
Proof.
  induction q as [|x q IH]; simpl; [done|].
  destruct (Ascii.eqb_spec x "/") as [->|_]; [done|exact IH].
Qed.

Lemma no_double_colon_tail (c : ascii) (q : string) :
  no_double_colon (String c q) = true → no_double_colon q = true.
Proof. simpl. by intros [_ ?]%andb_prop. Qed.

Lemma no_double_colon_after (q : string) :
  no_double_colon q = true → no_double_colon (after q "/") = true.
Proof.
  induction q as [|x q IH]; [done|]. intros H.
  apply no_double_colon_tail in H as Hq. simpl.
  destruct (Ascii.eqb x "/"); auto.
Qed.

Lemma length_after_le (q : string) (c : ascii) : String.length (after q c) ≤ String.length q.
Proof. pose proof (length_after q c). lia. Qed.

(** Inside a dynamic run: the candidate may be anywhere in its segment. *)
Lemma match__in_dynamic (q : string) :
  no_double_colon (String ":" q) = true →
  (∀ s', consume (runs false (after q "/")) s' = true →
         ∃ fuel, match_ fuel (after q "/") s' = Some true) →
  ∀ s, consume (runs true q) (from_slash s) = true →
       ∃ fuel, match_ fuel (String ":" q) s = Some true.
Proof.
  intros Hndc Hrest.
  assert (is_char (char_at q 0) ":" = false) as Hnext.
  { simpl in Hndc. apply andb_prop in Hndc as [Hndc _].
    by destruct (is_char (char_at q 0) ":"). }
  induction s as [|c s IH]; intros Hconsume.
  - simpl in Hconsume. rewrite runs_in_dynamic in Hconsume.
    destruct (includes q "/") eqn:E; [done|].
    exists 2. simpl. unfold char_at. simpl. fold (char_at q 0). rewrite Hnext. simpl.
    by rewrite (after_without q "/" E).
  - simpl in Hconsume. destruct (Ascii.eqb_spec c "/") as [->|Hne].
    + rewrite runs_in_dynamic in Hconsume.
      destruct (includes q "/") eqn:E; [|done]. simpl in Hconsume.
      destruct (Hrest s Hconsume) as [fuel Hfuel].
      exists (S fuel). simpl. unfold char_at. simpl. fold (char_at q 0). rewrite Hnext.
      simpl. exact Hfuel.
    + destruct (IH Hconsume) as [fuel Hfuel].
      exists (S fuel). simpl. unfold char_at. simpl. fold (char_at q 0). rewrite Hnext.
      simpl. apply Ascii.eqb_neq in Hne as ->. simpl. exact Hfuel.
Qed.

Lemma match__complete (n : nat) :
  ∀ pattern, String.length pattern ≤ n →
    no_double_colon pattern = true →
    ∀ s, consume (runs false pattern) s = true →
         ∃ fuel, match_ fuel pattern s = Some true.
Proof.
  induction n as [|n IH]; intros [|c p] Hlen Hndc s Hconsume; simpl in Hlen; try lia.
  - destruct s; [by exists 1|done].
  - destruct s; [by exists 1|done].
  - apply no_double_colon_tail in Hndc as Hp.
    simpl in Hconsume. destruct (Ascii.eqb_spec c ":") as [->|Hne].
    + simpl in Hconsume. apply andb_prop in Hconsume as [_ Hconsume].
      apply (match__in_dynamic p Hndc); [|done].
      intros s' Hs'. apply IH; [|by apply no_double_colon_after|done].
      pose proof (length_after_le p "/"). lia.
    + destruct s as [|c' s]; [done|]. simpl in Hconsume.
      apply andb_prop in Hconsume as [Hc Hconsume]. apply Ascii.eqb_eq in Hc as <-.
      destruct (IH p ltac:(lia) Hp s Hconsume) as [fuel Hfuel].
      exists (S fuel). simpl. unfold char_at. simpl. fold (char_at p 0) (char_at s 0).
      assert (is_char (char_at p 0) ":" && negb (truthy (char_at s 0)) = false) as ->.
      { destruct p as [|x p]; [done|]. unfold char_at. simpl.
        destruct (Ascii.eqb_spec x ":") as [->|_]; [|done].
        simpl in Hconsume. destruct s; [done|]. done. }
      apply Ascii.eqb_neq in Hne. unfold is_char, same_char. rewrite Hne. simpl.
      by rewrite Ascii.eqb_refl.
Qed.

(** Whatever consumes the pattern exactly, in the reading of the
    specification, is accepted by the matcher, provided the pattern has
    no two [:] in a row. *)
Theorem consumed_patterns_match (pattern s : string) :
  no_double_colon pattern = true →
  consumes_exactly pattern s = true → run_match pattern s = true.
Proof.
  intros Hndc Hconsume.
  destruct (match__complete (String.length pattern) pattern (le_n _) Hndc s Hconsume)
    as [fuel Hfuel].
  by eapply match__agrees.
Qed.

Lemma consumed_patterns_match_witness :
  run_match "/classes/:classSlug" "/classes/server" = true.
Proof.
  apply (consumed_patterns_match "/classes/:classSlug" "/classes/server");
    vm_compute; reflexivity.
Defined.

(** With [::] in the pattern the matcher also rejects a candidate that
    consumes it. *)
Lemma double_colon_rejected :
  consumes_exactly "::" "x" = true ∧ run_match "::" "x" = false.
Proof. done. Qed.

(** A pattern without [:] matches itself and nothing else. *)
Lemma match__literal (fuel : nat) :
  ∀ pattern s, includes pattern ":" = false →
    String.length pattern + String.length s < fuel →
    match_ fuel pattern s = Some (String.eqb pattern s).
Proof.
  induction fuel as [|fuel IH]; intros pattern s Hlit Hfuel; [lia|].
  destruct pattern as [|c p]; simpl.
  - destruct s; done.
  - simpl in Hlit. destruct (Ascii.eqb_spec c ":") as [->|Hne]; [done|].
    unfold char_at. simpl. fold (char_at p 0).
    assert (is_char (char_at p 0) ":" = false) as ->.
    { destruct p as [|x p]; [done|]. unfold char_at. simpl. simpl in Hlit.
      by destruct (Ascii.eqb x ":"). }
    simpl. unfold is_char, same_char.
    destruct s as [|c' s]; simpl; [done|].
    destruct (Ascii.eqb_spec c c') as [->|Hcc].
    + rewrite IH; [done|done|simpl in Hfuel; lia].
    + done.
Qed.

Theorem literal_patterns_match_themselves (pattern s : string) :
  ¬ contains pattern ":" → (run_match pattern s = true ↔ pattern = s).
Proof.
  intros Hlit. rewrite <- includes_contains in Hlit.
  destruct (includes pattern ":") eqn:E; [done|].
  pose proof (run_match_spec pattern s) as Hrun.
  rewrite (match__literal _ pattern s E) in Hrun; [|unfold match_fuel; lia].
  injection Hrun as <-. apply String.eqb_eq.
Qed.

Lemma literal_patterns_match_themselves_witness :
  run_match "/docs/meta/about" "/docs/meta/about" = true ↔ "/docs/meta/about" = "/docs/meta/about".
Proof.
  apply (literal_patterns_match_themselves "/docs/meta/about" "/docs/meta/about").
  intros H. by apply includes_contains in H.
Defined.

(** ** Any tree, however it was put together *)

(** Along any ancestry, [fullName] and [fullPath] are the joins of the
    names and of the paths from the root down, empty parts skipped. *)
Theorem fullName_fullPath_along_ancestry (h : heap) (n : ref) (l : list ref) (fuel : nat) :
  ancestry h n l → length l ≤ fuel →
  fullName fuel h n = Ok (join "." (List.filter nonempty (fields name h (reverse l)))) ∧
  fullPath fuel h n = Ok (join "" (List.filter nonempty (fields path h (reverse l)))).
Proof.
  intros Hanc Hfuel. rewrite fullName_joined, fullPath_joined.
  split; by apply joined_ancestry.
Qed.

Lemma fullName_fullPath_along_ancestry_witness :
  fullName 3 (store site) 30 = Ok "api.class" ∧
  fullPath 3 (store site) 30 = Ok "/api/classes/:classSlug".
Proof.
  apply (fullName_fullPath_along_ancestry (store site) 30 [30; 29; 0] 3).
  - apply (ancestry_child _ 30 (mkRoute "Class" "class" "/classes/:classSlug" [] None (Some 29) [] NoOp) 29);
      [vm_compute; reflexivity|reflexivity|].
    apply (ancestry_child _ 29 (mkRoute "API" "api" "/api" [] None (Some 0) [30] NoOp) 0);
      [vm_compute; reflexivity|reflexivity|].
    apply (ancestry_root _ 0 (mkRoute "" "" "" [] None None [1; 2; 3; 29; 31] NoOp));
      [vm_compute; reflexivity|reflexivity].
  - vm_compute. lia.
Defined.

(** [new Router(definitions)] returns the router, object [0] of a store
    that holds one object per definition besides it; every other object
    has a parent created before it and children created after it. *)
Theorem new_Router_returns (definitions : list RouteDefinition) (fuel : nat) :
  defs_size definitions < fuel →
  ∃ s, new_Router fuel definitions empty_state = (Ok 0, s) ∧
       length (store s) = S (defs_size definitions) ∧
       ordered (store s) ∧ attached (store s).
Proof.
  intros Hfuel.
  destruct (new_Router_ordered definitions fuel Hfuel) as (s & root & Hnew & Hord & Hatt & Hlen & _).
  by exists s.
Qed.

Lemma new_Router_returns_witness :
  ∃ s, new_Router 41 allRoutes_definitions empty_state = (Ok 0, s) ∧
       length (store s) = S (defs_size allRoutes_definitions) ∧
       ordered (store s) ∧ attached (store s).
Proof.
  apply (new_Router_returns allRoutes_definitions 41).
  vm_compute. lia.
Defined.

(** ** The matcher, one call at a time *)











(** ** The built tree mirrors the definitions *)

Lemma ids_from_lower (ds : list RouteDefinition) :
  ∀ k c, c ∈ ids_from k ds → k ≤ c.
Proof.
  induction ds as [|d ds IH]; intros k c Hc; simpl in Hc.
  - by apply not_elem_of_nil in Hc.
  - apply elem_of_cons in Hc as [->|Hc]; [lia|]. apply IH in Hc. lia.
Qed.

Lemma length_ids_from (ds : list RouteDefinition) (k : nat) :
  length (ids_from k ds) = length ds.
Proof. revert k. induction ds as [|d ds IH]; intros k; simpl; [done|]. by rewrite IH. Qed.

Lemma ids_from_app (ds1 ds2 : list RouteDefinition) (k : nat) :
  ids_from k (ds1 ++ ds2) = (ids_from k ds1 ++ ids_from (k + defs_size ds1) ds2)%list.
Proof.
  revert k. induction ds1 as [|d ds1 IH]; intros k; simpl.
  - unfold defs_size. simpl. by rewrite Nat.add_0_r.
  - rewrite IH. unfold defs_size. simpl. do 3 f_equal. lia.
Qed.

Lemma Forall2_with_Forall {A B : Type} (R R' : A → B → Prop) (P : B → Prop)
    (l : list A) (k : list B) :
  Forall P k → Forall2 R l k →
  (∀ x y, x ∈ l → P y → R x y → R' x y) →
  Forall2 R' l k.
Proof.
  intros HP HR. revert HP. induction HR as [|x y l k Hxy HR IH]; intros HP Himpl; [constructor|].
  inversion HP; subst. constructor.
  - apply Himpl; [left|done|done].
  - apply IH; [done|]. intros x' y' Hx'. apply Himpl. by right.
Qed.

(** Objects from [n] on decide whether [n] mirrors [d]. *)
Lemma mirrors_frame (h h' : heap) (d : RouteDefinition) :
  ∀ owner n, (∀ i o, n ≤ i → h !! i = Some o → h' !! i = Some o) →
    mirrors h owner n d → mirrors h' owner n d.
Proof.
  induction d as [l nm p ds m IHds] using RouteDefinition_nested_ind.
  intros owner n Hsame Hm.
  inversion Hm as [? ? o ? ? ? ? ? Ho Hl Hn Hp Hmeta Hparent Hroutes Hchildren]; subst.
  apply (mirrors_node h' owner n o); [by apply Hsame|done|done|done|done|done|done|].
  apply (Forall2_with_Forall _ _ _ _ _ IHds Hchildren).
  intros c d Hc Hd Hcd. apply Hd; [|done].
  intros i o' Hi. apply Hsame. apply ids_from_lower in Hc. lia.
Qed.

Lemma forEach_add_mirrors (fuel : nat) (this : ref) (ds : list RouteDefinition) :
  Forall (fun d => ∀ s, ordered (store s) → this < length (store s) →
                     length (store s) + def_size d ≤ fuel →
                     ∃ s' o, add fuel d this s = (Ok (length (store s)), s') ∧
                             extends this (def_size d) s s' ∧
                             store s !! this = Some o ∧
                             store s' !! this
                               = Some (with_routes (_routes o ++ [length (store s)])%list o) ∧
                             mirrors (store s') this (length (store s)) d) ds →
  ∀ s, ordered (store s) → this < length (store s) →
    length (store s) + defs_size ds ≤ fuel →
    ∃ s' o, forEach (fun d => add fuel d this ;; mret tt) ds s = (Ok tt, s') ∧
            extends this (defs_size ds) s s' ∧
            store s !! this = Some o ∧
            store s' !! this
              = Some (with_routes (_routes o ++ ids_from (length (store s)) ds)%list o) ∧
            Forall2 (mirrors (store s') this) (ids_from (length (store s)) ds) ds.
Proof.
  induction 1 as [|d ds Hd _ IH]; intros s Hord Hthis Hfuel.
  - destruct (lookup_lt_is_Some_2 _ _ Hthis) as [o Ho].
    exists s, o. split; [done|]. split; [by apply extends_refl|]. split; [done|].
    simpl. rewrite app_nil_r, with_routes_own. split; [done|constructor].
  - unfold defs_size in *. simpl in *.
    destruct (Hd s Hord Hthis) as (s1 & o & Hadd & Hext1 & Ho & Ho1 & Hm1); [lia|].
    pose proof Hext1 as (Hord1 & Hlen1 & _).
    destruct (IH s1 Hord1) as (s2 & o1 & Hrest & Hext2 & Ho1' & Ho2 & Hm2); [lia|lia|].
    rewrite Ho1 in Ho1'. injection Ho1' as <-.
    exists s2, o. split; [|split; [by eapply extends_trans|split; [done|split]]].
    + unfold mbind at 1, M_bind. unfold mbind at 1, M_bind. rewrite Hadd. done.
    + rewrite Ho2. simpl. rewrite Hlen1, <- app_assoc. done.
    + rewrite <- Hlen1. constructor; [|done].
      eapply mirrors_frame; [|exact Hm1].
      intros i oi Hi Hoi. destruct Hext2 as (_ & _ & Hframe & _). apply Hframe; [done|lia].
Qed.

Lemma add_mirrors (definition : RouteDefinition) :
  ∀ fuel this s, ordered (store s) → this < length (store s) →
    length (store s) + def_size definition ≤ fuel →
    ∃ s' o, add fuel definition this s = (Ok (length (store s)), s') ∧
            extends this (def_size definition) s s' ∧
            store s !! this = Some o ∧
            store s' !! this = Some (with_routes (_routes o ++ [length (store s)])%list o) ∧
            mirrors (store s') this (length (store s)) definition.
Proof.
  induction definition as [l n p ds m IHds] using RouteDefinition_nested_ind.
  intros fuel this s Hord Hthis Hfuel. simpl in Hfuel.
  set (node := mkRoute l n (default ("/" ++ n) p) (default [] (Some (default [] m))) None None [] NoOp).
  set (s1 := mkState (store s ++ [node])%list (trace s)).
  assert (length (store s1) = S (length (store s))) as Hlen1.
  { simpl. rewrite length_app. simpl. lia. }
  destruct (forEach_add_mirrors fuel (length (store s)) ds) with (s := s1)
    as (s2 & node' & Hchildren & (Hord2 & Hlen2 & Hframe2 & Hnode2 & Hnew2) & Hnode1 & Hn2 & Hm2).
  { eapply Forall_impl; [exact IHds|]. intros d Hd s0 ? ? ?. by apply Hd. }
  { by apply ordered_snoc. }
  { lia. }
  { fold (defs_size ds) in Hfuel. lia. }
  assert (node' = node) as -> by (simpl in Hnode1; rewrite list_lookup_middle in Hnode1; congruence).
  rewrite Hlen1 in Hn2, Hm2. simpl in Hn2.
  destruct (lookup_lt_is_Some_2 _ _ Hthis) as [othis Hothis].
  assert (store s2 !! this = Some othis) as Hthis2.
  { apply Hframe2; [|lia]. by apply lookup_app_l_Some. }
  assert (length (store s) ∉ _routes othis) as Hfresh.
  { intros Hin. destruct (Hord this othis Hothis) as [_ Hch]. specialize (Hch _ Hin). lia. }
  set (rs := ids_from (S (length (store s))) ds) in *.
  set (h1 := <[length (store s) := with_parent this (with_routes rs node)]> (store s2)).
  set (h3 := <[this := with_routes (_routes othis ++ [length (store s)])%list othis]> h1).
  assert (h1 !! this = Some othis) as Hthis1.
  { unfold h1. rewrite list_lookup_insert_ne; [done|lia]. }
  assert (ordered h1) as Hord1.
  { apply ordered_insert; [done| |].
    - intros q [= <-]. done.
    - intros c Hc. destruct (Hord2 _ _ Hn2) as [_ Hch]. by apply Hch. }
  assert (ordered h3) as Hord3.
  { apply ordered_insert; [done| |].
    - intros q Hq. destruct (Hord1 _ _ Hthis1) as [Hp _]. by apply Hp.
    - intros c [Hc| ->%list_elem_of_singleton]%elem_of_app.
      + destruct (Hord1 _ _ Hthis1) as [_ Hch]. by apply Hch.
      + unfold h1. rewrite length_insert. lia. }
  assert (length h3 = length (store s) + S (defs_size ds)) as Hlen3.
  { unfold h3, h1. rewrite !length_insert. lia. }
  destruct (ancestry_ordered h3 Hord3 this) as (chain & Hchain & Hchainlen & _); [lia|].
  exists (mkState h3 (trace s2 ++ notifications h3 chain (length (store s)))%list), othis.
  split; [|split; [|split; [done|split]]].
  - simpl.
    rewrite (M_bind_run _ _ s s1 (length (store s))); [|apply new_Route_plain].
    rewrite (M_bind_run _ _ s1 s2 tt); [|exact Hchildren].
    rewrite (M_bind_run _ _ s2 (mkState h3 (trace s2)) tt).
    + rewrite (M_bind_run _ _ (mkState h3 (trace s2))
                 (mkState h3 (trace s2 ++ notifications h3 chain (length (store s)))%list) tt);
        [done|].
      apply (didCreateRoute_run fuel this chain _ (mkState h3 (trace s2))); [done|lia].
    + rewrite (set_parent_run _ _ s2 (with_routes rs node) othis Hn2 Hthis1).
      simpl. by rewrite (existsb_eqb_false _ _ Hfresh).
  - split; [done|]. split; [simpl; fold (defs_size ds); lia|]. split; [|split].
    + intros i o Ho Hne. simpl. unfold h3, h1.
      pose proof (lookup_lt_Some _ _ _ Ho) as Hlt.
      rewrite !list_lookup_insert_ne; [|lia|done].
      apply Hframe2; [|lia]. by apply lookup_app_l_Some.
    + intros o Ho. assert (o = othis) as -> by congruence.
      eexists. simpl. unfold h3. apply list_lookup_insert_eq.
      unfold h1. rewrite length_insert. by eapply lookup_lt_Some.
    + intros i o Hi Ho. simpl in Ho. unfold h3 in Ho.
      rewrite list_lookup_insert_ne in Ho; [|lia].
      destruct (decide (i = length (store s))) as [->|Hne].
      * unfold h1 in Ho. apply list_lookup_insert_Some in Ho as [(_ & <- & _)|[? _]]; done.
      * unfold h1 in Ho. rewrite list_lookup_insert_ne in Ho; [|done].
        eapply Hnew2; [|done]. lia.
  - simpl. unfold h3. apply list_lookup_insert_eq.
    unfold h1. rewrite length_insert. by eapply lookup_lt_Some.
  - simpl.
    assert (h3 !! length (store s) = Some (with_parent this (with_routes rs node))) as Hn3.
    { unfold h3. rewrite list_lookup_insert_ne; [|lia].
      unfold h1. apply list_lookup_insert_eq. by eapply lookup_lt_Some. }
    apply (mirrors_node h3 this (length (store s)) (with_parent this (with_routes rs node)));
      [done|done|done|done|done|done|done|].
    apply (Forall2_with_Forall (mirrors (store s2) (length (store s))) _ (fun _ => True)
             rs ds); [by apply Forall_true|exact Hm2|].
    intros c d Hc _ Hcd. eapply mirrors_frame; [|exact Hcd].
    intros i o Hi Ho. apply ids_from_lower in Hc. unfold h3, h1.
    rewrite !list_lookup_insert_ne; [done|lia|lia].
Qed.



Lemma new_Router_mirrors (definitions : list RouteDefinition) (fuel : nat) :
  defs_size definitions < fuel →
  ∃ s root, new_Router fuel definitions empty_state = (Ok 0, s) ∧
            store s !! 0 = Some root ∧ _parent root = None ∧
            _routes root = ids_from 1 definitions ∧
            Forall2 (mirrors (store s) 0) (ids_from 1 definitions) definitions.
Proof.
  intros Hfuel.
  set (root := mkRoute "" "" "" [] None None [] NoOp).
  set (s1 := mkState [root] []).
  destruct (forEach_add_mirrors fuel 0 definitions) with (s := s1)
    as (s2 & root' & Hrun & Hext & Hroot & Hroot2 & Hm).
  { apply Forall_forall. intros d _ s ? ? ?. by apply add_mirrors. }
  { apply (ordered_snoc [] root); [|done|done]. intros i o Hi. done. }
  { simpl. lia. }
  { simpl. lia. }
  injection Hroot as <-. simpl in Hroot2, Hm.
  exists s2, (with_routes (ids_from 1 definitions) root).
  split; [|by auto].
  unfold new_Router.
  rewrite (M_bind_run _ _ empty_state s1 0); [|apply new_Route_plain].
  by rewrite (M_bind_run _ _ s1 s2 tt).
Qed.

(** Round trip of the constructor: the router is a parentless object
    with the empty label, name and path; its children mirror the
    definitions, in their order, and so on down the tree; the store holds
    the router and one object for each definition, nested ones included. *)
Theorem new_Router_mirrors_definitions (definitions : list RouteDefinition) (fuel : nat) :
  defs_size definitions < fuel →
  ∃ s root, new_Router fuel definitions empty_state = (Ok 0, s) ∧
            store s !! 0 = Some root ∧ _parent root = None ∧
            label root = "" ∧ name root = "" ∧ path root = "" ∧
            _routes root = ids_from 1 definitions ∧
            Forall2 (mirrors (store s) 0) (ids_from 1 definitions) definitions ∧
            length (store s) = S (defs_size definitions).
Proof.
  intros Hfuel.
  destruct (new_Router_mirrors definitions fuel Hfuel)
    as (s & root & Hnew & Hroot & Hparent & Hroutes & Hm).
  destruct (new_Router_ordered definitions fuel Hfuel)
    as (s' & root' & Hnew' & _ & _ & Hlen & Hroot' & _ & Hlabel & Hname & Hpath).
  rewrite Hnew in Hnew'. injection Hnew' as <-.
  rewrite Hroot in Hroot'. injection Hroot' as <-.
  by exists s, root.
Qed.

Lemma new_Router_mirrors_definitions_witness :
  ∃ s root, new_Router 41 allRoutes_definitions empty_state = (Ok 0, s) ∧
            store s !! 0 = Some root ∧ _parent root = None ∧
            label root = "" ∧ name root = "" ∧ path root = "" ∧
            _routes root = ids_from 1 allRoutes_definitions ∧
            Forall2 (mirrors (store s) 0) (ids_from 1 allRoutes_definitions)
              allRoutes_definitions ∧
            length (store s) = S (defs_size allRoutes_definitions).
Proof.
  apply (new_Router_mirrors_definitions allRoutes_definitions 41).
  vm_compute. lia.
Defined.

(** ** [allRoutes] and [pages] follow the definitions, depth first *)

Lemma flatten_mirrors (h : heap) (owner : ref) (ds : list RouteDefinition) :
  Forall (fun d => ∀ owner n fuel, mirrors h owner n d → def_size d ≤ fuel →
                     allRoutes fuel h n = Ok (seq (S n) (defs_size (d_routes d)))) ds →
  ∀ k fuel, Forall2 (mirrors h owner) (ids_from k ds) ds → defs_size ds ≤ fuel →
    flatten (S fuel) h (ids_from k ds) = Ok (seq k (defs_size ds)).
Proof.
  induction 1 as [|d ds Hd _ IH]; intros k fuel Hm Hfuel; [done|].
  simpl in Hm. inversion Hm as [|? ? ? ? Hmd Hmds]; subst.
  unfold defs_size in *. simpl in *.
  apply flatten_cons_Ok. eexists _, _. split; [apply (Hd owner k fuel Hmd); lia|].
  split; [apply IH; [done|lia]|].
  destruct d as [l nm p cs m]. simpl. f_equal.
  rewrite seq_app. unfold defs_size. f_equal. f_equal. lia.
Qed.

Lemma allRoutes_mirrors (d : RouteDefinition) :
  ∀ h owner n fuel, mirrors h owner n d → def_size d ≤ fuel →
    allRoutes fuel h n = Ok (seq (S n) (defs_size (d_routes d))).
Proof.
  induction d as [l nm p ds m IHds] using RouteDefinition_nested_ind.
  intros h owner n fuel Hm Hfuel.
  inversion Hm as [? ? o ? ? ? ? ? Ho Hl Hn Hp Hmeta Hparent Hroutes Hchildren]; subst.
  simpl in Hfuel. destruct fuel as [|fuel]; [lia|].
  unfold allRoutes, routes. apply deref_Ok in Ho as ->. simpl. rewrite Hroutes.
  apply (flatten_mirrors h n ds); [|done|fold (defs_size ds) in Hfuel; lia].
  eapply Forall_impl; [exact IHds|]. intros d Hd ? ? ? ? ?. by eapply Hd.
Qed.

Lemma shows_preorder_list (h : heap) (owner : ref) (ds : list RouteDefinition) :
  Forall (fun d => ∀ owner n, mirrors h owner n d →
                     Forall2 (shows h) (seq n (def_size d)) (preorder d)) ds →
  ∀ k, Forall2 (mirrors h owner) (ids_from k ds) ds →
    Forall2 (shows h) (seq k (defs_size ds)) (flat_map preorder ds).
Proof.
  induction 1 as [|d ds Hd _ IH]; intros k Hm; [constructor|].
  simpl in Hm. inversion Hm as [|? ? ? ? Hmd Hmds]; subst.
  unfold defs_size in *. simpl. rewrite seq_app.
  apply Forall2_app; [by eapply Hd|by apply IH].
Qed.

Lemma shows_preorder (d : RouteDefinition) :
  ∀ h owner n, mirrors h owner n d → Forall2 (shows h) (seq n (def_size d)) (preorder d).
Proof.
  induction d as [l nm p ds m IHds] using RouteDefinition_nested_ind.
  intros h owner n Hm.
  inversion Hm as [? ? o ? ? ? ? ? Ho Hl Hn Hp Hmeta Hparent Hroutes Hchildren]; subst.
  simpl. constructor.
  - exists o. simpl. rewrite Hroutes, length_ids_from. done.
  - apply (shows_preorder_list h n ds); [|done].
    eapply Forall_impl; [exact IHds|]. intros d Hd ? ? ?. by eapply Hd.
Qed.

Lemma Forall2_filter {A B : Type} (R : A → B → Prop) (p : A → bool) (q : B → bool)
    (l : list A) (k : list B) :
  Forall2 R l k → (∀ x y, R x y → p x = q y) →
  Forall2 R (List.filter p l) (List.filter q k).
Proof.
  intros HR Hpq. induction HR as [|x y l k Hxy HR IH]; simpl; [constructor|].
  rewrite (Hpq x y Hxy). destruct (q y); [by constructor|done].
Qed.

(** After [new Router(definitions)]: [allRoutes] of the router lists every
    object below it once, in the order the definitions are written, depth
    first; each object shows the label, name and path of the definition at
    its position.  [pages] lists, in that order, the objects of the
    definitions without nested routes, each once. *)
Theorem allRoutes_in_definition_order (definitions : list RouteDefinition) (fuel : nat) :
  defs_size definitions < fuel →
  ∃ s ps, new_Router fuel definitions empty_state = (Ok 0, s) ∧
          allRoutes fuel (store s) 0 = Ok (seq 1 (defs_size definitions)) ∧
          Forall2 (shows (store s)) (seq 1 (defs_size definitions))
            (flat_map preorder definitions) ∧
          pages fuel (store s) 0 = Ok ps ∧ NoDup ps ∧
          Forall2 (shows (store s)) ps (List.filter is_page (flat_map preorder definitions)).
Proof.
  intros Hfuel.
  destruct (new_Router_mirrors definitions fuel Hfuel)
    as (s & root & Hnew & Hroot & _ & Hroutes & Hm).
  destruct (new_Router_ordered definitions fuel Hfuel)
    as (s' & _ & Hnew' & Hord & _ & Hlen & _).
  rewrite Hnew in Hnew'. injection Hnew' as <-.
  assert (allRoutes fuel (store s) 0 = Ok (seq 1 (defs_size definitions))) as Hall.
  { destruct fuel as [|fuel]; [lia|].
    unfold allRoutes, routes. apply deref_Ok in Hroot as ->. simpl. rewrite Hroutes.
    apply (flatten_mirrors (store s) 0 definitions); [|done|lia].
    apply Forall_forall. intros d _ ? ? ? ? ?. by eapply allRoutes_mirrors. }
  assert (Forall2 (shows (store s)) (seq 1 (defs_size definitions))
            (flat_map preorder definitions)) as Hshows.
  { apply (shows_preorder_list (store s) 0 definitions); [|done].
    apply Forall_forall. intros d _ ? ? ?. by eapply shows_preorder. }
  destruct (pages_total fuel (store s) 0 Hord) as [ps Hps]; [lia|lia|].
  exists s, ps. split; [done|]. split; [done|]. split; [done|]. split; [done|].
  assert (ps = List.filter (fun r => match store s !! r with
                                     | Some o => (length (_routes o) =? 0)%nat
                                     | None => false
                                     end) (seq 1 (defs_size definitions))) as ->.
  { unfold pages in Hps. rewrite Hall in Hps. simpl in Hps.
    eapply filter__spec; [|exact Hps]. intros x _ b.
    unfold routes, deref. destruct (store s !! x); simpl; [|done]. by intros [= <-]. }
  split.
  - apply NoDup_ListNoDup, List.NoDup_filter, List.seq_NoDup.
  - apply Forall2_filter; [done|].
    intros x d (o & -> & _ & _ & _ & Hn). rewrite Hn. unfold is_page.
    by destruct (d_routes d).
Qed.

Lemma allRoutes_in_definition_order_witness :
  ∃ s ps, new_Router 41 allRoutes_definitions empty_state = (Ok 0, s) ∧
          allRoutes 41 (store s) 0 = Ok (seq 1 (defs_size allRoutes_definitions)) ∧
          Forall2 (shows (store s)) (seq 1 (defs_size allRoutes_definitions))
            (flat_map preorder allRoutes_definitions) ∧
          pages 41 (store s) 0 = Ok ps ∧ NoDup ps ∧
          Forall2 (shows (store s)) ps
            (List.filter is_page (flat_map preorder allRoutes_definitions)).
Proof.
  apply (allRoutes_in_definition_order allRoutes_definitions 41).
  vm_compute. lia.
Defined.

(** ** One notification per call of [add] *)

Lemma ancestry_of_parentless (h : heap) (n : ref) (l : list ref) (o : Route) :
  ancestry h n l → h !! n = Some o → _parent o = None → l = [n].
Proof. intros Hanc Ho Hp. destruct Hanc; [done|congruence]. Qed.

Lemma notifications_of_silent (h : heap) (n : ref) (o : Route) (route : ref) :
  h !! n = Some o → _onNewRoute o = NoOp → notifications h [n] route = [].
Proof. intros Ho Hl. rewrite notifications_cons, Ho. simpl. by rewrite Hl. Qed.

(** Children added to an object that has neither listener nor parent:
    nothing is called. *)
Lemma forEach_add_silent (fuel : nat) (this : ref) (ds : list RouteDefinition) :
  Forall (fun d => ∀ s n s', this < length (store s) →
                     add fuel d this s = (Ok n, s') →
                     ∃ chain, ancestry (store s') this chain ∧
                              trace s' = (trace s ++ notifications (store s') chain n)%list) ds →
  ∀ s s' u o, this < length (store s) →
    store s !! this = Some o → _onNewRoute o = NoOp → _parent o = None →
    forEach (fun d => add fuel d this ;; mret tt) ds s = (Ok u, s') →
    trace s' = trace s.
Proof.
  induction 1 as [|d ds Hd _ IH]; intros s s' u o Hthis Ho Hl Hp Hrun.
  - by injection Hrun as _ <-.
  - simpl in Hrun.
    apply M_bind_Ok in Hrun as ([] & s1 & Hfirst & Hrest).
    apply M_bind_Ok in Hfirst as (n & s1' & Hadd & [= ->]).
    destruct (Hd s n s1 Hthis Hadd) as (chain & Hchain & Htrace).
    destruct (add_effect d fuel this s n s1 Hthis Hadd) as [[Hpres _] _].
    destruct (Hpres this o Ho) as (o1 & Ho1 & Hl1 & Hp1).
    rewrite Hl in Hl1. rewrite Hp in Hp1.
    rewrite (ancestry_of_parentless _ _ _ _ Hchain Ho1 Hp1) in Htrace.
    rewrite (notifications_of_silent _ _ _ _ Ho1 Hl1), app_nil_r in Htrace.
    rewrite <- Htrace. apply (IH s1 s' u o1); try done.
    by eapply lookup_lt_Some.
Qed.

Lemma add_trace (definition : RouteDefinition) :
  ∀ fuel this s n s', this < length (store s) →
    add fuel definition this s = (Ok n, s') →
    ∃ chain, ancestry (store s') this chain ∧
             trace s' = (trace s ++ notifications (store s') chain n)%list.
Proof.
  induction definition as [l nm p ds m IHds] using RouteDefinition_nested_ind.
  intros fuel this s n s' Hthis Hadd. simpl in Hadd.
  apply M_bind_Ok in Hadd as (n' & s1 & Hnew & Hadd).
  rewrite new_Route_plain in Hnew. injection Hnew as <- <-.
  set (node := mkRoute l nm (default ("/" ++ nm) p) (default [] (Some (default [] m))) None None [] NoOp) in *.
  set (s1 := mkState (store s ++ [node])%list (trace s)) in *.
  apply M_bind_Ok in Hadd as ([] & s2 & Hchildren & Hadd).
  apply M_bind_Ok in Hadd as ([] & s3 & Hparent & Hadd).
  apply M_bind_Ok in Hadd as ([] & s4 & Hnotify & [= <- <-]).
  assert (trace s2 = trace s) as Ht2.
  { apply (forEach_add_silent fuel (length (store s)) ds) with (u := tt) (o := node) (s := s1);
      [|unfold s1; simpl; rewrite length_app; simpl; lia|by apply list_lookup_middle|done|done|done].
    eapply Forall_impl; [exact IHds|]. intros d Hd s0 n0 s0' ? ?. by eapply Hd. }
  apply set_parent_Ok in Hparent as (oc & op & Hoc & Hop & Hparent).
  rewrite (set_parent_run _ _ s2 oc op Hoc Hop) in Hparent.
  assert (trace s3 = trace s2) as Ht3 by (by injection Hparent as <-).
  apply didCreateRoute_Ok in Hnotify as (chain & Hchain & _ & ->). simpl.
  exists chain. split; [done|]. by rewrite Ht3, Ht2.
Qed.

(** One call of [add] tells the listeners about one object only: the
    calls it adds to the trace are those of the listeners from [this] up
    to the root, each with the object [add] returns.  The objects nested
    in the definition are created without any listener hearing of them. *)
Theorem add_notifies_about_the_new_child_only
    (fuel : nat) (definition : RouteDefinition) (this : ref) (s : state) (n : ref) (s' : state) :
  this < length (store s) →
  add fuel definition this s = (Ok n, s') →
  ∃ chain calls,
    ancestry (store s') this chain ∧
    calls = notifications (store s') chain n ∧
    trace s' = (trace s ++ calls)%list ∧
    Forall (fun e => subject e = n) calls ∧
    length calls ≤ length chain.
Proof.
  intros Hthis Hadd.
  destruct (add_trace definition fuel this s n s' Hthis Hadd) as (chain & Hchain & Htrace).
  exists chain, (notifications (store s') chain n).
  split; [done|]. split; [done|]. split; [done|]. split; [apply notifications_subject|].
  clear. induction chain as [|r chain IH]; [done|].
  rewrite notifications_cons, length_app.
  destruct (_onNewRoute <$> store s' !! r) as [[|tag]|]; simpl; lia.
Qed.

Lemma add_notifies_about_the_new_child_only_witness :
  ∃ chain calls,
    ancestry (store (snd (add 7 (section_ "More" "more" [page "Inner" "inner"]) 0 listening)))
      0 chain ∧
    calls = notifications
              (store (snd (add 7 (section_ "More" "more" [page "Inner" "inner"]) 0 listening)))
              chain 5 ∧
    trace (snd (add 7 (section_ "More" "more" [page "Inner" "inner"]) 0 listening))
      = (trace listening ++ calls)%list ∧
    Forall (fun e => subject e = 5) calls ∧
    length calls ≤ length chain.
Proof.
  assert (0 < length (store listening)) as Hthis by (vm_compute; lia).
  apply (add_notifies_about_the_new_child_only 7
           (section_ "More" "more" [page "Inner" "inner"]) 0 listening 5 _ Hthis).
  vm_compute. reflexivity.
Defined.

(** ** The setter of [parent] *)

Lemma existsb_eqb_true (x : ref) (l : list ref) :
  existsb (Nat.eqb x) l = true → x ∈ l.
Proof.
  induction l as [|y l IH]; simpl; [done|].
  destruct (Nat.eqb_spec x y) as [->|_]; [left|]. intros H. right. by apply IH.
Qed.

Lemma existsb_eqb_elem (x : ref) (l : list ref) :
  x ∈ l → existsb (Nat.eqb x) l = true.
Proof.
  induction l as [|y l IH]; intros Hx; [by apply not_elem_of_nil in Hx|]. simpl.
  apply elem_of_cons in Hx as [->|Hx]; [by rewrite Nat.eqb_refl|].
  rewrite IH; [|done]. by destruct (x =? y)%nat.
Qed.

Lemma with_parent_own (p : ref) (o : Route) : _parent o = Some p → with_parent p o = o.
Proof. destruct o. simpl. by intros ->. Qed.

(** [route.parent = p]: afterwards the parent of [route] is [p] and
    [route] is among the children of [p]; doing it again changes nothing,
    so [route] is never listed twice by this setter; and no array of
    children loses an element: a route that had another parent is still
    listed by that one. *)
Theorem set_parent_links_both_ways (child p : ref) (s s1 : state) (u : unit) :
  set_parent child p s = (Ok u, s1) →
  (∃ oc op, store s1 !! child = Some oc ∧ _parent oc = Some p ∧
            store s1 !! p = Some op ∧ child ∈ _routes op) ∧
  set_parent child p s1 = (Ok tt, s1) ∧
  (∀ i o, store s !! i = Some o →
     ∃ o', store s1 !! i = Some o' ∧ _routes o `prefix_of` _routes o') ∧
  trace s1 = trace s ∧ length (store s1) = length (store s).
Proof.
  intros H. apply set_parent_Ok in H as (oc & op & Hoc & Hop & H).
  rewrite (set_parent_run _ _ s oc op Hoc Hop) in H. injection H as <-.
  set (h1 := <[child := with_parent p oc]> (store s)) in *.
  pose proof (lookup_lt_Some _ _ _ Hoc) as Hclt.
  assert (h1 !! child = Some (with_parent p oc)) as Hc1 by (by apply list_lookup_insert_eq).
  assert (∃ oc1 op1, h1 !! child = Some oc1 ∧ _parent oc1 = Some p ∧
                     h1 !! p = Some op1 ∧ _routes op1 = _routes op ∧
                     (child = p → oc1 = op1)) as (oc1 & op1 & Hoc1 & Hpar1 & Hop1 & Hr1 & Hsame).
  { exists (with_parent p oc), op. repeat split; try done. intros ->. congruence. }
  assert (∀ i o, store s !! i = Some o →
            ∃ o', h1 !! i = Some o' ∧ _routes o' = _routes o) as Hh1.
  { intros i o Ho. destruct (decide (i = child)) as [->|Hne].
    - exists (with_parent p oc). split; [done|]. simpl. congruence.
    - exists o. unfold h1. by rewrite list_lookup_insert_ne. }
  destruct (existsb (Nat.eqb child) (_routes op)) eqn:E; simpl.
  - apply existsb_eqb_true in E.
    split; [exists oc1, op1; rewrite Hr1; done|]. split; [|split; [|unfold h1; by rewrite length_insert]].
    + assert (<[child := with_parent p oc1]> h1 !! p = Some op1) as Hstep.
      { by rewrite (with_parent_own _ _ Hpar1), (list_insert_id _ _ _ Hoc1). }
      rewrite (set_parent_run child p (mkState h1 (trace s)) oc1 op1 Hoc1 Hstep).
      cbn [store trace]. rewrite Hr1, (existsb_eqb_elem _ _ E).
      by rewrite (with_parent_own _ _ Hpar1), (list_insert_id _ _ _ Hoc1).
    + intros i o Ho. destruct (Hh1 i o Ho) as (o' & Ho' & Hr). exists o'. by rewrite Hr.
  - set (op' := with_routes (_routes op ++ [child])%list op).
    pose proof (lookup_lt_Some _ _ _ Hop) as Hplt.
    assert (<[p := op']> h1 !! p = Some op') as Hp2 by (by apply list_lookup_insert_eq).
    assert (child ∈ _routes op') as Hin by (apply elem_of_app; right; left).
    assert (∃ oc2, <[p := op']> h1 !! child = Some oc2 ∧ _parent oc2 = Some p)
      as (oc2 & Hoc2 & Hpar2).
    { destruct (decide (p = child)) as [->|Hne].
      - exists op'. split; [done|]. simpl. assert (op = with_parent child oc) as -> by congruence.
        done.
      - exists (with_parent p oc). by rewrite list_lookup_insert_ne. }
    split; [by exists oc2, op'|]. split; [|split; [|unfold h1; by rewrite !length_insert]].
    + assert (<[child := with_parent p oc2]> (<[p := op']> h1) !! p = Some op') as Hstep.
      { by rewrite (with_parent_own _ _ Hpar2), (list_insert_id _ _ _ Hoc2). }
      rewrite (set_parent_run child p (mkState (<[p := op']> h1) (trace s)) oc2 op' Hoc2 Hstep).
      cbn [store trace]. rewrite (existsb_eqb_elem _ _ Hin).
      by rewrite (with_parent_own _ _ Hpar2), (list_insert_id _ _ _ Hoc2).
    + intros i o Ho. destruct (Hh1 i o Ho) as (o' & Ho' & Hr).
      destruct (decide (i = p)) as [->|Hne].
      * exists op'. split; [done|]. simpl.
        assert (o' = op) as -> by congruence. rewrite <- Hr. by apply prefix_app_r.
      * exists o'. rewrite list_lookup_insert_ne; [|done]. by rewrite Hr.
Qed.

Lemma set_parent_links_both_ways_witness :
  (∃ oc op, store (snd (set_parent 2 4 (built small_definitions))) !! 2 = Some oc ∧
            _parent oc = Some 4 ∧
            store (snd (set_parent 2 4 (built small_definitions))) !! 4 = Some op ∧
            2 ∈ _routes op) ∧
  set_parent 2 4 (snd (set_parent 2 4 (built small_definitions)))
    = (Ok tt, snd (set_parent 2 4 (built small_definitions))) ∧
  (∀ i o, store (built small_definitions) !! i = Some o →
     ∃ o', store (snd (set_parent 2 4 (built small_definitions))) !! i = Some o' ∧
           _routes o `prefix_of` _routes o') ∧
  trace (snd (set_parent 2 4 (built small_definitions))) = trace (built small_definitions) ∧
  length (store (snd (set_parent 2 4 (built small_definitions))))
    = length (store (built small_definitions)).
Proof.
  apply (set_parent_links_both_ways 2 4 (built small_definitions) _ tt).
  vm_compute. reflexivity.
Defined.

(** ** The setter of [routes], when no route is taken *)

Lemma adopt_run (fuel : nat) (this r : ref) (s : state) (ot o : Route) :
  store s !! this = Some ot → r ∈ _routes ot →
  store s !! r = Some o → (_parent o = None ∨ _parent o = Some this) →
  adopt fuel this r s = (Ok tt, mkState (<[r := with_parent this o]> (store s)) (trace s)).
Proof.
  intros Hot Hin Ho Hfree.
  assert (set_parent r this s
          = (Ok tt, mkState (<[r := with_parent this o]> (store s)) (trace s))) as Hset.
  { assert (∃ op, <[r := with_parent this o]> (store s) !! this = Some op ∧
                  _routes op = _routes ot) as (op & Hop & Hr).
    { destruct (decide (r = this)) as [->|Hne].
      - exists (with_parent this o). split; [apply list_lookup_insert_eq; by eapply lookup_lt_Some|].
        simpl. congruence.
      - exists ot. by rewrite list_lookup_insert_ne. }
    rewrite (set_parent_run r this s o op Ho Hop). by rewrite Hr, (existsb_eqb_elem _ _ Hin). }
  unfold adopt, read, parent, deref. unfold mbind at 1, M_bind. simpl. rewrite Ho. simpl.
  destruct Hfree as [->| ->]; [done|]. by rewrite Nat.eqb_refl.
Qed.

Lemma adopt_Ok (fuel : nat) (this r : ref) (s s1 : state) (u : unit) (ot : Route) :
  adopt fuel this r s = (Ok u, s1) →
  store s !! this = Some ot → r ∈ _routes ot →
  ∃ o, store s !! r = Some o ∧ (_parent o = None ∨ _parent o = Some this) ∧
       s1 = mkState (<[r := with_parent this o]> (store s)) (trace s).
Proof.
  intros H Hot Hin.
  destruct (store s !! r) as [o|] eqn:Ho.
  - assert (_parent o = None ∨ _parent o = Some this) as Hfree.
    { destruct (_parent o) as [p|] eqn:Hp; [|by left].
      destruct (decide (p = this)) as [->|Hne]; [by right|]. exfalso.
      revert H. unfold adopt, read, throw, parent, deref, mbind, M_bind. simpl.
      rewrite Ho. simpl. rewrite Hp. apply Nat.eqb_neq in Hne as ->. simpl.
      destruct (fullName fuel (store s) r); try done.
      destruct (fullName fuel (store s) this); try done.
      destruct (fullName fuel (store s) p); done. }
    exists o. split; [done|]. split; [done|].
    rewrite (adopt_run fuel this r s ot o Hot Hin Ho Hfree) in H. congruence.
  - revert H. unfold adopt, read, parent, deref, mbind, M_bind. simpl. by rewrite Ho.
Qed.

Lemma with_parent_twice (p : ref) (o : Route) : with_parent p (with_parent p o) = with_parent p o.
Proof. done. Qed.

Lemma forEach_adopt_Ok (fuel : nat) (this : ref) (l : list ref) :
  ∀ s s' u ot, forEach (adopt fuel this) l s = (Ok u, s') →
    store s !! this = Some ot → (∀ r, r ∈ l → r ∈ _routes ot) →
    trace s' = trace s ∧
    (∀ i o, store s !! i = Some o →
       store s' !! i = Some (if decide (i ∈ l) then with_parent this o else o)) ∧
    (∀ r, r ∈ l → ∃ o, store s !! r = Some o ∧ (_parent o = None ∨ _parent o = Some this)).
Proof.
  induction l as [|r l IH]; intros s s' u ot Hrun Hot Hin.
  - injection Hrun as _ <-. split; [done|]. split.
    + intros i o Ho. destruct (decide (i ∈ [])) as [Hi|_]; [|done]. by apply not_elem_of_nil in Hi.
    + intros r Hr. by apply not_elem_of_nil in Hr.
  - simpl in Hrun. apply M_bind_Ok in Hrun as ([] & s1 & Hfirst & Hrest).
    destruct (adopt_Ok fuel this r s s1 tt ot Hfirst Hot) as (o & Ho & Hfree & ->);
      [apply Hin; left|].
    assert (∀ i oi, store s !! i = Some oi →
              <[r := with_parent this o]> (store s) !! i
              = Some (if decide (i = r) then with_parent this oi else oi)) as Hstep.
    { intros i oi Hoi. destruct (decide (i = r)) as [->|Hne].
      - rewrite list_lookup_insert_eq; [|by eapply lookup_lt_Some]. congruence.
      - by rewrite list_lookup_insert_ne. }
    destruct (IH _ s' u (if decide (this = r) then with_parent this ot else ot) Hrest)
      as (Htrace & Hstore & Hfreed).
    { simpl. by apply Hstep. }
    { intros r' Hr'. destruct (decide (this = r)); simpl; apply Hin; by right. }
    split; [done|]. split.
    + intros i oi Hoi. rewrite (Hstore i _ (Hstep i oi Hoi)).
      destruct (decide (i = r)) as [->|Hne].
      * destruct (decide (r = r)) as [_|?]; [|done].
        destruct (decide (r ∈ r :: l)) as [_|Hn]; [|exfalso; apply Hn; left].
        by destruct (decide (r ∈ l)).
      * destruct (decide (i = r)) as [?|_]; [done|].
        destruct (decide (i ∈ l)) as [Hi|Hi].
        -- destruct (decide (i ∈ r :: l)) as [_|Hn]; [done|]. exfalso. apply Hn. by right.
        -- destruct (decide (i ∈ r :: l)) as [[?|?]%elem_of_cons|_]; done.
    + intros r' [->|Hr']%elem_of_cons; [by exists o|].
      destruct (Hfreed r' Hr') as (o1 & Ho1 & Hfree1). simpl in Ho1.
      destruct (decide (r' = r)) as [->|Hne]; [by exists o|].
      rewrite list_lookup_insert_ne in Ho1; [|done]. by exists o1.
Qed.

Lemma forEach_adopt_run (fuel : nat) (this : ref) (l : list ref) :
  ∀ s ot, store s !! this = Some ot → (∀ r, r ∈ l → r ∈ _routes ot) →
    (∀ r, r ∈ l → ∃ o, store s !! r = Some o ∧ (_parent o = None ∨ _parent o = Some this)) →
    ∃ s', forEach (adopt fuel this) l s = (Ok tt, s').
Proof.
  induction l as [|r l IH]; intros s ot Hot Hin Hfree; [by eexists|].
  destruct (Hfree r) as (o & Ho & Hf); [left|].
  simpl. rewrite (M_bind_run _ _ _ _ tt (adopt_run fuel this r s ot o Hot (Hin r ltac:(left)) Ho Hf)).
  apply (IH _ (if decide (this = r) then with_parent this ot else ot)).
  - simpl. destruct (decide (this = r)) as [->|Hne].
    + rewrite list_lookup_insert_eq; [|by eapply lookup_lt_Some]. congruence.
    + by rewrite list_lookup_insert_ne.
  - intros r' Hr'. destruct (decide (this = r)); simpl; apply Hin; by right.
  - intros r' Hr'. destruct (Hfree r') as (o' & Ho' & Hf'); [by right|]. simpl.
    destruct (decide (r' = r)) as [->|Hne].
    + exists (with_parent this o). split; [apply list_lookup_insert_eq; by eapply lookup_lt_Some|].
      by right.
    + exists o'. by rewrite list_lookup_insert_ne.
Qed.

(** [this.routes = rs] returns exactly when every route of [rs] is free:
    it has no parent, or [this] already.  Then [this.routes] is [rs] as
    given, every route of [rs] has the parent [this], and nothing else
    changes: in particular the routes [this] listed before and that are
    not in [rs] keep [this] as their parent. *)
Theorem set_routes_adopts_free_routes (fuel : nat) (this : ref) (rs : list ref) (s : state) :
  is_Some (store s !! this) →
  ((∀ r, r ∈ rs → ∃ o, store s !! r = Some o ∧ (_parent o = None ∨ _parent o = Some this)) ↔
   ∃ s', set_routes fuel this rs s = (Ok tt, s')) ∧
  (∀ s', set_routes fuel this rs s = (Ok tt, s') →
     routes (store s') this = Ok rs ∧
     (∀ r, r ∈ rs → parent (store s') r = Ok (Some this)) ∧
     (∀ i o, i ≠ this → i ∉ rs → store s !! i = Some o → store s' !! i = Some o) ∧
     trace s' = trace s).
Proof.
  intros [ot Hot].
  set (s0 := mkState (<[this := with_routes rs ot]> (store s)) (trace s)).
  assert (set_routes fuel this rs s = forEach (adopt fuel this) rs s0) as Hunfold.
  { unfold set_routes, update. unfold mbind at 1, M_bind. by rewrite Hot. }
  assert (store s0 !! this = Some (with_routes rs ot)) as Hthis0.
  { apply list_lookup_insert_eq. by eapply lookup_lt_Some. }
  assert (∀ i o, store s !! i = Some o →
            store s0 !! i = Some (if decide (i = this) then with_routes rs o else o)) as Hstep.
  { intros i o Ho. simpl. destruct (decide (i = this)) as [->|Hne].
    - rewrite list_lookup_insert_eq; [|by eapply lookup_lt_Some]. congruence.
    - by rewrite list_lookup_insert_ne. }
  split; [split|].
  - intros Hfree. rewrite Hunfold.
    apply (forEach_adopt_run fuel this rs s0 (with_routes rs ot) Hthis0); [done|].
    intros r Hr. destruct (Hfree r Hr) as (o & Ho & Hf).
    eexists. split; [by apply Hstep|]. by destruct (decide (r = this)).
  - intros [s' Hrun] r Hr. rewrite Hunfold in Hrun.
    destruct (forEach_adopt_Ok fuel this rs s0 s' tt _ Hrun Hthis0) as (_ & _ & Hfree); [done|].
    destruct (Hfree r Hr) as (o0 & Ho0 & Hf). simpl in Ho0.
    destruct (decide (r = this)) as [->|Hne].
    + exists ot. split; [done|].
      rewrite list_lookup_insert_eq in Ho0; [|by eapply lookup_lt_Some].
      by injection Ho0 as <-.
    + rewrite list_lookup_insert_ne in Ho0; [|done]. by exists o0.
  - intros s' Hrun. rewrite Hunfold in Hrun.
    destruct (forEach_adopt_Ok fuel this rs s0 s' tt _ Hrun Hthis0) as (Htrace & Hstore & Hfree);
      [done|].
    split; [|split; [|split; [|done]]].
    + unfold routes, deref. rewrite (Hstore this _ Hthis0). simpl.
      by destruct (decide (this ∈ rs)).
    + intros r Hr. destruct (Hfree r Hr) as (o0 & Ho0 & _).
      unfold parent, deref. rewrite (Hstore r o0 Ho0). rewrite decide_True; done.
    + intros i o Hne Hi Ho. rewrite (Hstore i o).
      * by rewrite decide_False.
      * rewrite (Hstep i o Ho). by rewrite decide_False.
Qed.

Lemma set_routes_adopts_free_routes_witness :
  routes (store (snd (set_routes 5 1 [3; 2] (built small_definitions)))) 1 = Ok [3; 2] ∧
  (∀ r, r ∈ [3; 2] →
        parent (store (snd (set_routes 5 1 [3; 2] (built small_definitions)))) r = Ok (Some 1)) ∧
  (∀ i o, i ≠ 1 → i ∉ [3; 2] → store (built small_definitions) !! i = Some o →
          store (snd (set_routes 5 1 [3; 2] (built small_definitions))) !! i = Some o) ∧
  trace (snd (set_routes 5 1 [3; 2] (built small_definitions))) = trace (built small_definitions).
Proof.
  assert (is_Some (store (built small_definitions) !! 1)) as Hthis
    by (eexists; vm_compute; reflexivity).
  apply (proj2 (set_routes_adopts_free_routes 5 1 [3; 2] (built small_definitions) Hthis)).
  vm_compute. reflexivity.
Defined.

(** ** Array callbacks that agree on every element *)

Lemma reduce_ext {A B : Type} (f g : B → A → outcome B) (l : list A) :
  (∀ acc x, f acc x = g acc x) → ∀ acc, reduce f l acc = reduce g l acc.
Proof.
  intros Hfg. induction l as [|x l IH]; intros acc; [done|]. simpl. rewrite Hfg.
  destruct (g acc x); simpl; by rewrite ?IH.
Qed.

Lemma find_ext {A : Type} (p q : A → outcome bool) (l : list A) :
  (∀ x, p x = q x) → find p l = find q l.
Proof.
  intros Hpq. induction l as [|x l IH]; [done|]. simpl. rewrite Hpq.
  destruct (q x) as [[]| |]; simpl; by rewrite ?IH.
Qed.

Lemma filter__ext {A : Type} (p q : A → outcome bool) (l : list A) :
  (∀ x, p x = q x) → filter_ p l = filter_ q l.
Proof.
  intros Hpq. induction l as [|x l IH]; [done|]. simpl. by rewrite Hpq, IH.
Qed.

(** ** Reading the tree does not depend on [activePath] *)

Section ActivePathFrame.
Context (h : heap) (r : ref) (o : Route) (a a' : string).
Hypothesis Hstrip : strip_trailing_slashes a = strip_trailing_slashes a'.

Local Abbreviation h1 := (<[r := with_activePath a o]> h).
Local Abbreviation h2 := (<[r := with_activePath a' o]> h).

Lemma deref_with_activePath (n : ref) :
  deref h1 n = deref h2 n ∨
  (deref h1 n = Ok (with_activePath a o) ∧ deref h2 n = Ok (with_activePath a' o)).
Proof.
  unfold deref. destruct (decide (n = r)) as [->|Hne].
  - destruct (decide (r < length h)) as [Hlt|Hge].
    + right. by rewrite !list_lookup_insert_eq.
    + left. by rewrite !list_insert_ge by lia.
  - left. by rewrite !list_lookup_insert_ne.
Qed.

Lemma joined_with_activePath (sep : string) (f : Route → string) :
  (∀ x, f (with_activePath a x) = f (with_activePath a' x)) →
  ∀ (fuel : nat) (n : ref), joined sep f fuel h1 n = joined sep f fuel h2 n.
Proof.
  intros Hf fuel. induction fuel as [|fuel IH]; intros n; [done|]. simpl.
  destruct (deref_with_activePath n) as [->|[-> ->]].
  - destruct (deref h2 n) as [x| |]; simpl; try done. destruct (_parent x); by rewrite ?IH.
  - simpl. rewrite Hf. destruct (_parent o); by rewrite ?IH.
Qed.

Lemma fullName_with_activePath (fuel : nat) (n : ref) : fullName fuel h1 n = fullName fuel h2 n.
Proof. rewrite !fullName_joined. by apply joined_with_activePath. Qed.

Lemma fullPath_with_activePath (fuel : nat) (n : ref) : fullPath fuel h1 n = fullPath fuel h2 n.
Proof. rewrite !fullPath_joined. by apply joined_with_activePath. Qed.

Lemma routes_with_activePath (n : ref) : routes h1 n = routes h2 n.
Proof. unfold routes. by destruct (deref_with_activePath n) as [->|[-> ->]]. Qed.

Lemma flatten_with_activePath (fuel : nat) (rs : list ref) : flatten fuel h1 rs = flatten fuel h2 rs.
Proof.
  revert rs. induction fuel as [|fuel IH]; intros rs; [done|]. simpl.
  apply reduce_ext. intros acc x. rewrite routes_with_activePath.
  destruct (routes h2 x) as [l| |]; simpl; by rewrite ?IH.
Qed.

Lemma pages_with_activePath (fuel : nat) (n : ref) : pages fuel h1 n = pages fuel h2 n.
Proof.
  unfold pages, allRoutes. rewrite routes_with_activePath.
  destruct (routes h2 n) as [l| |]; simpl; try done. rewrite flatten_with_activePath.
  destruct (flatten fuel h2 l) as [all| |]; simpl; try done.
  apply filter__ext. intros x. by rewrite routes_with_activePath.
Qed.

Lemma matches_with_activePath (fuel : nat) (n : ref) (p : string) :
  matches fuel h1 n p = matches fuel h2 n p.
Proof. unfold matches. by rewrite fullPath_with_activePath. Qed.

Lemma activePath_with_activePath (fuel : nat) (n : ref) :
  (x ← activePath fuel h1 n; Ok (option_map strip_trailing_slashes x))
  = (x ← activePath fuel h2 n; Ok (option_map strip_trailing_slashes x)).
Proof.
  revert n. induction fuel as [|fuel IH]; intros n; [done|]. simpl.
  destruct (deref_with_activePath n) as [->|[-> ->]].
  - destruct (deref h2 n) as [x| |]; simpl; try done. destruct (_parent x); by rewrite ?IH.
  - simpl. destruct (_parent o); [by rewrite IH|]. simpl. by rewrite Hstrip.
Qed.

Lemma activePage_with_activePath (fuel : nat) (n : ref) :
  activePage fuel h1 n = activePage fuel h2 n.
Proof.
  unfold activePage. rewrite pages_with_activePath.
  destruct (pages fuel h2 n) as [ps| |]; simpl; try done.
  apply find_ext. intros x.
  pose proof (activePath_with_activePath fuel n) as Hactive.
  destruct (activePath fuel h1 n) as [[x1|]| |], (activePath fuel h2 n) as [[x2|]| |];
    simpl in Hactive; simpl; try done.
  - injection Hactive as Hsame. rewrite Hsame. apply matches_with_activePath.
  - congruence.
Qed.

Lemma located_with_activePath (fuel : nat) (n : ref) :
  located fuel h1 n = located fuel h2 n.
Proof.
  unfold located. rewrite activePage_with_activePath, pages_with_activePath.
  destruct (activePage fuel h2 n) as [[p|]| |]; simpl; try done.
  destruct (pages fuel h2 n) as [ps| |]; simpl; try done.
  apply find_ext. intros x.
  by rewrite (fullName_with_activePath fuel x), (fullName_with_activePath fuel p).
Qed.

Lemma previousPage_with_activePath (fuel : nat) (n : ref) :
  previousPage fuel h1 n = previousPage fuel h2 n.
Proof. unfold previousPage. by rewrite located_with_activePath, pages_with_activePath. Qed.

Lemma nextPage_with_activePath (fuel : nat) (n : ref) :
  nextPage fuel h1 n = nextPage fuel h2 n.
Proof. unfold nextPage. by rewrite located_with_activePath, pages_with_activePath. Qed.

End ActivePathFrame.

Lemma strip_trailing_slash (a : string) :
  strip_trailing_slashes (a ++ "/") = strip_trailing_slashes a.
Proof. induction a as [|c a IH]; [done|]. simpl. by rewrite IH. Qed.

Lemma set_activePath_Ok (this : ref) (a : string) (s s1 : state) (u : unit) :
  set_activePath this a s = (Ok u, s1) →
  ∃ o, store s !! this = Some o ∧ _parent o = None ∧
       s1 = mkState (<[this := with_activePath a o]> (store s)) (trace s).
Proof.
  unfold set_activePath, read, parent, deref, update, throw, mbind, M_bind. simpl.
  destruct (store s !! this) as [o|] eqn:Ho; simpl; [|done].
  destruct (_parent o) eqn:Hp; [done|]. rewrite Ho. intros [= _ <-]. by exists o.
Qed.

(** The trailing slashes of the path assigned to [activePath] are not
    seen: where [router.activePath = a] returns, so does
    [router.activePath = a + "/"], and [activePage], [previousPage] and
    [nextPage] of every route give the same in both states: the same
    route, nothing, or the same exception. *)
Theorem navigation_ignores_a_trailing_slash
    (fuel : nat) (router : ref) (a : string) (s s1 : state) :
  set_activePath router a s = (Ok tt, s1) →
  ∃ s2, set_activePath router (a ++ "/") s = (Ok tt, s2) ∧
        ∀ n, activePage fuel (store s2) n = activePage fuel (store s1) n ∧
             previousPage fuel (store s2) n = previousPage fuel (store s1) n ∧
             nextPage fuel (store s2) n = nextPage fuel (store s1) n.
Proof.
  intros (o & Ho & Hroot & ->)%set_activePath_Ok.
  exists (mkState (<[router := with_activePath (a ++ "/") o]> (store s)) (trace s)). split.
  - unfold set_activePath, read, parent, deref, update, mbind, M_bind. simpl.
    rewrite Ho. simpl. by rewrite Hroot, Ho.
  - intros n. simpl.
    pose proof (strip_trailing_slash a) as Hstrip.
    split; [|split].
    + by apply activePage_with_activePath.
    + by apply previousPage_with_activePath.
    + by apply nextPage_with_activePath.
Qed.

Lemma navigation_ignores_a_trailing_slash_witness :
  ∃ s2, set_activePath 0 ("/guide/usage" ++ "/") (built small_definitions) = (Ok tt, s2) ∧
        ∀ n, activePage 6 (store s2) n
               = activePage 6 (store (visiting small_definitions "/guide/usage")) n ∧
             previousPage 6 (store s2) n
               = previousPage 6 (store (visiting small_definitions "/guide/usage")) n ∧
             nextPage 6 (store s2) n
               = nextPage 6 (store (visiting small_definitions "/guide/usage")) n.
Proof.
  apply (navigation_ignores_a_trailing_slash 6 0 "/guide/usage" (built small_definitions)
           (visiting small_definitions "/guide/usage")).
  vm_compute. reflexivity.
Defined.

(** ** [routerFor] is a search by [fullPath] *)

(** [routerFor(p)] is [find({fullPath: p})]: the same route, nothing, or
    the same failure. *)
Theorem routerFor_is_find_by_fullPath (fuel : nat) (h : heap) (this : ref) (wanted : string) :
  routerFor fuel h this wanted = Route_find fuel h this [(KFullPath, wanted)].
Proof.
  unfold routerFor, Route_find. destruct (allRoutes fuel h this) as [all| |]; simpl; try done.
  apply find_ext. intros x. unfold satisfies. simpl.
  destruct (fullPath fuel h x) as [p| |]; simpl; try done.
  rewrite String.eqb_sym. by destruct (String.eqb wanted p).
Qed.
